(** * Batched matrix multiplication of dynet (dynet/matrix-multiply.h)

    A shallow embedding of the three entry points [MatrixMultiply],
    [MatrixTranspMultiplyAcc] and [MatrixMultiplyTranspAcc], each in its CPU
    (Eigen) and its accelerator (cuBLAS) variant, over an explicit flat
    memory of scalars.

    Scalars.  The code computes on [float].  The development is stated over
    an arbitrary carrier [T] with a zero, a one, an addition and a
    multiplication; every algebraic law a proof needs is an explicit
    hypothesis of the theorem that needs it, so that each statement shows
    which part of exact arithmetic it relies on.  Where such a law fails on
    [float], the integers extended with a NaN stand in for it.

    The accelerator library.  [cublasSgemm] is given twice: as the
    arithmetic of a call the library accepts, and, in
    [cublasSgemm_checked], together with the argument check whose failure
    [CUBLAS_CHECK] turns into an abort and with the output operand left
    unread when beta is zero.

    Integers.  Dimensions and batch counts ([unsigned], and [int] for
    [max_b]) are modelled as [nat]; products of dimensions are assumed not to
    overflow. *)

From Stdlib Require Import Arith PeanoNat Lia List Bool ZArith.
Import ListNotations.

(** ** Scalars *)

Class Scalar (T : Type) : Type := {
  zero : T;
  one : T;
  add : T -> T -> T;
  mul : T -> T -> T
}.

Infix "+!" := add (at level 50, left associativity).
Infix "*!" := mul (at level 40, left associativity).

#[export] Instance Z_Scalar : Scalar Z :=
  {| zero := 0%Z; one := 1%Z; add := Z.add; mul := Z.mul |}.

(** The test [beta == 0] of the accelerator library. *)
Class ZeroTest (T : Type) : Type := { is_zero : T -> bool }.

#[export] Instance Z_ZeroTest : ZeroTest Z := {| is_zero := Z.eqb 0%Z |}.

(** ** Dimension descriptors and tensors *)

(** Modelled from the spec: [Dim] (dynet/dim.h is not part of the sources at
    hand).  A dimension descriptor is (rows, cols, batch_count); [bd] is the
    batch count, [batch_size] the number of scalars of one batch element and
    [batch_elems] the number of batch elements. *)
Record Dim : Type := mkDim { rows : nat; cols : nat; bd : nat }.

Definition batch_elems (dm : Dim) : nat := bd dm.
Definition batch_size (dm : Dim) : nat := rows dm * cols dm.

(** Modelled from the spec: [Tensor] (dynet/tensor.h is not part of the
    sources at hand).  A tensor is a dimension descriptor [d] plus a
    contiguous buffer; the buffer is given by the address [v] of its first
    scalar in the flat memory. *)
Record Tensor : Type := mkTensor { d : Dim; v : nat }.

(** Number of scalars of the whole buffer of a tensor. *)
Definition size (t : Tensor) : nat := batch_size (d t) * bd (d t).

(** Modelled from the spec: [Tensor::batch_ptr].  Batch elements are laid out
    contiguously with stride rows*cols; a tensor of batch count 1 is reused
    at every batch index.  The specification gives a pointer only for a
    batch index below the batch count, or for a tensor of batch count 1,
    and leaves a call outside its preconditions undefined; the model has
    no pointer, [None], for any other index, and what is proved below of
    the result of a loop is proved for indices in range ([reaches]). *)
Definition batch_ptr (t : Tensor) (bid : nat) : option nat :=
  if bd (d t) =? 1 then Some (v t)
  else if bid <? bd (d t) then Some (v t + bid * batch_size (d t))
  else None.

(** ** Eigen matrix views *)

(** [Eigen::Map<Eigen::MatrixXf>]: a column-major [mrows] x [mcols] view of
    the memory at [data]; coefficient (i, j) lives at [data + i + j * mrows]. *)
Record Map : Type := mkMap { data : nat; mrows : nat; mcols : nat }.

(** Modelled from the spec: [Tensor::operator*], the matrix view of a tensor
    of batch count 1. *)
Definition operator_star (t : Tensor) : Map :=
  mkMap (v t) (rows (d t)) (cols (d t)).

(** Modelled from the spec: [Tensor::colbatch_matrix], the whole batch
    treated as one wide matrix of shape (rows, cols * batch_count). *)
Definition colbatch_matrix (t : Tensor) : Map :=
  mkMap (v t) (rows (d t)) (cols (d t) * batch_elems (d t)).

(** Modelled from the spec: [Tensor::batch_matrix], the matrix view of one
    batch element, at the pointer [batch_ptr] gives. *)
Definition batch_matrix (t : Tensor) (bid : nat) : option Map :=
  match batch_ptr t bid with
  | Some p => Some (mkMap p (rows (d t)) (cols (d t)))
  | None => None
  end.

(** An operand of an Eigen product: a view or its [.transpose()]. *)
Inductive MatExpr : Type :=
| Plain (A : Map)
| Transpose (A : Map).

Definition expr_rows (e : MatExpr) : nat :=
  match e with Plain A => mrows A | Transpose A => mcols A end.

Definition expr_cols (e : MatExpr) : nat :=
  match e with Plain A => mcols A | Transpose A => mrows A end.

(** Address of coefficient (i, j) of an operand. *)
Definition coeff_addr (e : MatExpr) (i j : nat) : nat :=
  match e with
  | Plain A => data A + i + j * mrows A
  | Transpose A => data A + j + i * mrows A
  end.

(** ** Backend multiply calls, as they are issued *)

(** A call of [cublasSgemm] with its transposition flags, dimensions,
    operand addresses and leading dimensions, or an Eigen statement
    [dst.noalias() += lhs * rhs] with its views. *)

Inductive Event : Type :=
| Sgemm (transa transb : bool) (m n k : nat) (A lda B ldb C ldc : nat)
| EigenProduct (dst : Map) (lhs rhs : MatExpr).

(** Position of address [a] in a column-major block of [m] rows and [n]
    columns at [base] with leading dimension [ld]: its (row, column) when
    [a] is a coefficient of the block. *)
Definition locate (base ld m n a : nat) : option (nat * nat) :=
  if (base <=? a) && ((a - base) mod ld <? m) && ((a - base) / ld <? n)
  then Some ((a - base) mod ld, (a - base) / ld)
  else None.

(** [for (b = from; b < from + count; ++b) body(b)] over a fallible state
    transformer. *)
Fixpoint for_loop {W : Type} (count from : nat) (body : nat -> W -> option W)
    (w : W) : option W :=
  match count with
  | 0 => Some w
  | S c =>
      match body from w with
      | Some w' => for_loop c (S from) body w'
      | None => None
      end
  end.

Section Kernels.

Context {T : Type} `{Scalar T}.

(** The flat memory of scalars. *)
Definition mem : Type := nat -> T.

(** The state: the memory and the backend multiply calls issued so far. *)
Record World : Type := mkWorld { heap : mem; trace : list Event }.

(** Sum of [f 0 .. f (k-1)], accumulated from the left. *)
Fixpoint sum_n (k : nat) (f : nat -> T) : T :=
  match k with
  | 0 => zero
  | S k' => sum_n k' f +! f k'
  end.

(** *** cuBLAS *)

(** [cublasSgemm(handle, transa, transb, m, n, k, alpha, A, lda, B, ldb,
    beta, C, ldc)], the BLAS contract of the library call:
    C := alpha * op(A) * op(B) + beta * C on column-major operands, op(A) of
    shape m x k, op(B) of shape k x n and C of shape m x n.  The operands
    are read in the state before the call.  Every call of this file passes
    the row count of C as [ldc].  This is the arithmetic of an accepted
    call only: the status the library returns, which [CUBLAS_CHECK] turns
    into an abort, and the library's not reading C when beta is zero are
    modelled by [cublasSgemm_checked] below. *)
Definition cublasSgemm (transa transb : bool) (m n k : nat) (alpha : T)
    (A lda B ldb : nat) (beta : T) (C ldc : nat) (w : World) : World :=
  {| heap := fun a =>
       match locate C ldc m n a with
       | Some (i, j) =>
           alpha *!
             sum_n k (fun p =>
               heap w (if transa then A + p + i * lda else A + i + p * lda) *!
               heap w (if transb then B + j + p * ldb else B + p + j * ldb))
           +! beta *! heap w a
       | None => heap w a
       end;
     trace := trace w ++ [Sgemm transa transb m n k A lda B ldb C ldc] |}.

(** *** Eigen *)

(** [dst.noalias() += lhs * rhs].  Eigen requires the inner dimensions of the
    product to agree and the destination to have the shape of the product;
    otherwise the statement has no defined result.  With [noalias] the
    operands are read in the state before the statement. *)
Definition noalias_add_product (dst : Map) (lhs rhs : MatExpr) (w : World)
    : option World :=
  if (expr_cols lhs =? expr_rows rhs) && (mrows dst =? expr_rows lhs)
     && (mcols dst =? expr_cols rhs)
  then
    Some {| heap := fun a =>
              match locate (data dst) (mrows dst) (mrows dst) (mcols dst) a with
              | Some (i, j) =>
                  heap w a +!
                  sum_n (expr_cols lhs) (fun p =>
                    heap w (coeff_addr lhs i p) *! heap w (coeff_addr rhs p j))
              | None => heap w a
              end;
            trace := trace w ++ [EigenProduct dst lhs rhs] |}
  else None.

(** [t.tbvec() = alpha * t.tbvec()], evaluated on the CPU device: every
    scalar of the buffer of [t] is multiplied by [alpha]. *)
Definition tbvec_scale (alpha : T) (t : Tensor) (w : World) : World :=
  {| heap := fun a =>
       if (v t <=? a) && (a <? v t + size t) then alpha *! heap w a
       else heap w a;
     trace := trace w |}.

(** *** MatrixMultiply *)

Definition MatrixMultiply_GPU (l r y : Tensor) (acc_scalar : T) (w : World)
    : option World :=
  if (bd (d l) =? 1) && (bd (d r) =? bd (d y)) then
    Some (cublasSgemm false false
            (rows (d y)) (cols (d y) * batch_elems (d y)) (cols (d l))
            one (v l) (rows (d l)) (v r) (rows (d r))
            acc_scalar (v y) (rows (d y)) w)
  else
    for_loop (bd (d y)) 0 (fun b w =>
      match batch_ptr l b, batch_ptr r b, batch_ptr y b with
      | Some lp, Some rp, Some yp =>
          Some (cublasSgemm false false
                  (rows (d y)) (cols (d y)) (cols (d l))
                  one lp (rows (d l)) rp (rows (d r))
                  acc_scalar yp (rows (d y)) w)
      | _, _, _ => None
      end) w.

Definition MatrixMultiply_CPU (l r y : Tensor) (acc_scalar : T) (w : World)
    : option World :=
  let w1 := tbvec_scale acc_scalar y w in
  if (bd (d l) =? 1) && (bd (d r) =? bd (d y)) then
    noalias_add_product (colbatch_matrix y)
      (Plain (operator_star l)) (Plain (colbatch_matrix r)) w1
  else
    for_loop (bd (d y)) 0 (fun b w =>
      match batch_matrix y b, batch_matrix l b, batch_matrix r b with
      | Some yb, Some lb, Some rb =>
          noalias_add_product yb (Plain lb) (Plain rb) w
      | _, _, _ => None
      end) w1.

(** *** MatrixTranspMultiplyAcc: l^T * r *)

Definition MatrixTranspMultiplyAcc_GPU (l r y : Tensor) (w : World)
    : option World :=
  let max_b := Nat.max (bd (d l)) (bd (d r)) in
  if (bd (d l) =? 1) && (bd (d y) =? bd (d r)) then
    Some (cublasSgemm true false
            (rows (d y)) (cols (d y) * batch_elems (d y)) (rows (d l))
            one (v l) (rows (d l)) (v r) (rows (d r))
            one (v y) (rows (d y)) w)
  else
    for_loop max_b 0 (fun b w =>
      match batch_ptr l b, batch_ptr r b, batch_ptr y b with
      | Some lp, Some rp, Some yp =>
          Some (cublasSgemm true false
                  (rows (d y)) (cols (d y)) (rows (d l))
                  one lp (rows (d l)) rp (rows (d r))
                  one yp (rows (d y)) w)
      | _, _, _ => None
      end) w.

Definition MatrixTranspMultiplyAcc_CPU (l r y : Tensor) (w : World)
    : option World :=
  let max_b := Nat.max (bd (d l)) (bd (d r)) in
  if (bd (d l) =? 1) && (bd (d y) =? bd (d r)) then
    noalias_add_product (colbatch_matrix y)
      (Transpose (operator_star l)) (Plain (colbatch_matrix r)) w
  else
    for_loop max_b 0 (fun b w =>
      match batch_matrix y b, batch_matrix l b, batch_matrix r b with
      | Some yb, Some lb, Some rb =>
          noalias_add_product yb (Transpose lb) (Plain rb) w
      | _, _, _ => None
      end) w.

(** *** MatrixMultiplyTranspAcc: l * r^T *)

Definition MatrixMultiplyTranspAcc_GPU (l r y : Tensor) (w : World)
    : option World :=
  let max_b := Nat.max (bd (d l)) (bd (d r)) in
  if (bd (d y) =? 1) && (bd (d l) =? bd (d r)) then
    Some (cublasSgemm false true
            (rows (d y)) (cols (d y)) (cols (d l) * batch_elems (d l))
            one (v l) (rows (d l)) (v r) (rows (d r))
            one (v y) (rows (d y)) w)
  else
    for_loop max_b 0 (fun b w =>
      match batch_ptr l b, batch_ptr r b, batch_ptr y b with
      | Some lp, Some rp, Some yp =>
          Some (cublasSgemm false true
                  (rows (d y)) (cols (d y)) (cols (d l))
                  one lp (rows (d l)) rp (rows (d r))
                  one yp (rows (d y)) w)
      | _, _, _ => None
      end) w.

Definition MatrixMultiplyTranspAcc_CPU (l r y : Tensor) (w : World)
    : option World :=
  let max_b := Nat.max (bd (d l)) (bd (d r)) in
  if (bd (d y) =? 1) && (bd (d l) =? bd (d r)) then
    noalias_add_product (operator_star y)
      (Plain (colbatch_matrix l)) (Transpose (colbatch_matrix r)) w
  else
    for_loop max_b 0 (fun b w =>
      match batch_matrix y b, batch_matrix l b, batch_matrix r b with
      | Some yb, Some lb, Some rb =>
          noalias_add_product yb (Plain lb) (Transpose rb) w
      | _, _, _ => None
      end) w.

(** *** Backends and entry points *)

Inductive Backend : Type := CPU | GPU.

Definition MatrixMultiply (be : Backend) :=
  match be with CPU => MatrixMultiply_CPU | GPU => MatrixMultiply_GPU end.

Definition MatrixTranspMultiplyAcc (be : Backend) :=
  match be with
  | CPU => MatrixTranspMultiplyAcc_CPU
  | GPU => MatrixTranspMultiplyAcc_GPU
  end.

Definition MatrixMultiplyTranspAcc (be : Backend) :=
  match be with
  | CPU => MatrixMultiplyTranspAcc_CPU
  | GPU => MatrixMultiplyTranspAcc_GPU
  end.

(** ** Vocabulary of the specification *)

(** Address of batch element [bid] of [t]; the single batch element of a
    tensor of batch count 1 stands for every index (broadcast). *)
Definition batch_base (t : Tensor) (bid : nat) : nat :=
  v t + (if bd (d t) =? 1 then 0 else bid) * batch_size (d t).

(** Entry (i, j) of batch element [b] of tensor [t] in memory [h]. *)
Definition elem (h : mem) (t : Tensor) (b i j : nat) : T :=
  h (batch_base t b + i + j * rows (d t)).

(** One scaled accumulate C := beta * C + op(A) * op(B) on an [M] x [N]
    block at [C], as a function on memories. *)
Definition dotp (ta tb : bool) (K A lda B ldb : nat) (h : mem) (i j : nat)
    : T :=
  sum_n K (fun p =>
    h (if ta then A + p + i * lda else A + i + p * lda) *!
    h (if tb then B + j + p * ldb else B + p + j * ldb)).

Definition gemm_upd (ta tb : bool) (M N K : nat) (beta : T)
    (A lda B ldb C : nat) (h : mem) : mem :=
  fun a =>
    match locate C M M N a with
    | Some (i, j) => beta *! h a +! dotp ta tb K A lda B ldb h i j
    | None => h a
    end.

(** [c] scaled accumulates in a row, batch index 0 first. *)
Fixpoint iter_upd (c : nat) (step : nat -> mem -> mem) (h : mem) : mem :=
  match c with
  | 0 => h
  | S c' => step c' (iter_upd c' step h)
  end.

(** The scaled accumulate of batch index [b]:
    Y[b] := beta * Y[b] + op(L[b]) * op(R[b]), batch-count-1 tensors being
    reused at every index. *)
Definition batch_step (ta tb : bool) (K : nat) (beta : T) (l r y : Tensor)
    (b : nat) : mem -> mem :=
  gemm_upd ta tb (rows (d y)) (cols (d y)) K beta
    (batch_base l b) (rows (d l)) (batch_base r b) (rows (d r))
    (batch_base y b).

(** The loop bodies of the entry points, by transposition flags. *)
Definition gpu_body (ta tb : bool) (K : nat) (beta : T) (l r y : Tensor)
    (b : nat) (w : World) : option World :=
  match batch_ptr l b, batch_ptr r b, batch_ptr y b with
  | Some lp, Some rp, Some yp =>
      Some (cublasSgemm ta tb (rows (d y)) (cols (d y)) K
              one lp (rows (d l)) rp (rows (d r)) beta yp (rows (d y)) w)
  | _, _, _ => None
  end.

Definition cpu_body (ta tb : bool) (l r y : Tensor) (b : nat) (w : World)
    : option World :=
  match batch_matrix y b, batch_matrix l b, batch_matrix r b with
  | Some yb, Some lb, Some rb =>
      noalias_add_product yb
        (if ta then Transpose lb else Plain lb)
        (if tb then Transpose rb else Plain rb) w
  | _, _, _ => None
  end.

(** The three entry points under one name. *)
Inductive EntryPoint : Type :=
| Forward (acc_scalar : T)
| TranspLeft
| TranspRight.

Definition run (be : Backend) (ep : EntryPoint) (l r y : Tensor)
    : World -> option World :=
  match ep with
  | Forward acc_scalar => MatrixMultiply be l r y acc_scalar
  | TranspLeft => MatrixTranspMultiplyAcc be l r y
  | TranspRight => MatrixMultiplyTranspAcc be l r y
  end.

(** Batch counts of a call of an accumulating entry point: with
    n = max(L.batch_count, R.batch_count), each of L, R and Y has batch
    count 1 or n. *)
Definition batches_ok (l r y : Tensor) : Prop :=
  (bd (d l) = 1 \/ bd (d l) = Nat.max (bd (d l)) (bd (d r))) /\
  (bd (d r) = 1 \/ bd (d r) = Nat.max (bd (d l)) (bd (d r))) /\
  (bd (d y) = 1 \/ bd (d y) = Nat.max (bd (d l)) (bd (d r))).

(** The preconditions of the specification (sections 4.1 to 4.3). *)
Definition valid_call (ep : EntryPoint) (l r y : Tensor) : Prop :=
  match ep with
  | Forward _ =>
      cols (d l) = rows (d r) /\ rows (d y) = rows (d l) /\
      cols (d y) = cols (d r) /\
      bd (d r) = bd (d y) /\ (bd (d l) = 1 \/ bd (d l) = bd (d y))
  | TranspLeft =>
      rows (d l) = rows (d r) /\ rows (d y) = cols (d l) /\
      cols (d y) = cols (d r) /\ batches_ok l r y
  | TranspRight =>
      cols (d l) = cols (d r) /\ rows (d y) = rows (d l) /\
      cols (d y) = rows (d r) /\ batches_ok l r y
  end.

(** Following the specification (sections 4.1 and 8): the forward product
    as [bd y] independent single-matrix multiplies, the one of index [b]
    accumulated into Y[b] with the same [alpha]. *)
Definition forward_per_batch (l r y : Tensor) (alpha : T) (h : mem) : mem :=
  iter_upd (bd (d y)) (batch_step false false (cols (d l)) alpha l r y) h.

(** Following the specification (sections 4.2 and 4.3): the accumulating
    products as a loop over max(L.batch_count, R.batch_count) batch indices,
    each product added into the batch element of Y of that index. *)
Definition transp_per_batch (ta tb : bool) (l r y : Tensor) (h : mem) : mem :=
  iter_upd (Nat.max (bd (d l)) (bd (d r)))
    (batch_step ta tb (if ta then rows (d l) else cols (d l)) one l r y) h.

(** No scalar outside the buffer of [t] differs between [w] and [w']. *)
Definition unchanged_outside (t : Tensor) (w w' : World) : Prop :=
  forall a, a < v t \/ v t + size t <= a -> heap w' a = heap w a.


(** Following the specification (section 8): every element of the buffer of
    [t] set to zero. *)
Definition zero_tensor (t : Tensor) (w : World) : World :=
  {| heap := fun a =>
       if (v t <=? a) && (a <? v t + size t) then zero else heap w a;
     trace := trace w |}.

(** *** Vocabulary of the further properties *)

(** Two outcomes of a call: both without result, or both with a result and
    the same memory. *)
Definition same_outcome (o1 o2 : option World) : Prop :=
  match o1, o2 with
  | Some w1, Some w2 => forall a, heap w1 a = heap w2 a
  | None, None => True
  | _, _ => False
  end.

(** The shape preconditions of an entry point, batch counts left open. *)
Definition call_shapes (ep : EntryPoint) (l r y : Tensor) : Prop :=
  match ep with
  | Forward _ =>
      cols (d l) = rows (d r) /\ rows (d y) = rows (d l) /\
      cols (d y) = cols (d r)
  | TranspLeft =>
      rows (d l) = rows (d r) /\ rows (d y) = cols (d l) /\
      cols (d y) = cols (d r)
  | TranspRight =>
      cols (d l) = cols (d r) /\ rows (d y) = rows (d l) /\
      cols (d y) = rows (d r)
  end.

(** The dispatch condition of an entry point: the single wide call. *)
Definition takes_wide_path (ep : EntryPoint) (l r y : Tensor) : bool :=
  match ep with
  | Forward _ => (bd (d l) =? 1) && (bd (d r) =? bd (d y))
  | TranspLeft => (bd (d l) =? 1) && (bd (d y) =? bd (d r))
  | TranspRight => (bd (d y) =? 1) && (bd (d l) =? bd (d r))
  end.

(** The bound of the loop of an entry point. *)
Definition loop_count (ep : EntryPoint) (l r y : Tensor) : nat :=
  match ep with
  | Forward _ => bd (d y)
  | TranspLeft | TranspRight => Nat.max (bd (d l)) (bd (d r))
  end.

(** Transposition of the left and of the right operand. *)
Definition transp_l (ep : EntryPoint) : bool :=
  match ep with TranspLeft => true | _ => false end.

Definition transp_r (ep : EntryPoint) : bool :=
  match ep with TranspRight => true | _ => false end.

(** The call adds the product into Y: an accumulating entry point, or
    MatrixMultiply with scalar 1. *)
Definition adds_into (ep : EntryPoint) : Prop :=
  match ep with
  | Forward acc_scalar => acc_scalar = one
  | TranspLeft | TranspRight => True
  end.

(** The contraction dimension of a call, read off the left operand. *)
Definition inner_dim (ep : EntryPoint) (l : Tensor) : nat :=
  if transp_l ep then rows (d l) else cols (d l).

(** The per-batch loop an entry point stands for: [forward_per_batch] or
    [transp_per_batch] with its transposition flags. *)
Definition per_batch_reference (ep : EntryPoint) (l r y : Tensor) (h : mem)
    : mem :=
  match ep with
  | Forward acc_scalar => forward_per_batch l r y acc_scalar h
  | TranspLeft => transp_per_batch true false l r y h
  | TranspRight => transp_per_batch false true l r y h
  end.

(** *** cuBLAS with its argument check *)

Context `{ZeroTest T}.

(** The leading dimensions [cublasSgemm] accepts: each at least 1 and at
    least the row count of its matrix as stored (m or k rows for A, k or n
    rows for B, by the transposition flag, and m rows for C).  On any other
    argument the library returns an error status. *)
Definition sgemm_args_ok (transa transb : bool) (m n k lda ldb ldc : nat)
    : bool :=
  (Nat.max 1 (if transa then k else m) <=? lda) &&
  (Nat.max 1 (if transb then n else k) <=? ldb) &&
  (Nat.max 1 m <=? ldc).

(** [CUBLAS_CHECK(cublasSgemm(handle, transa, transb, m, n, k, alpha, A, lda,
    B, ldb, beta, C, ldc))]: an error status of the library aborts, so the
    call has no result; on accepted arguments
    C := alpha * op(A) * op(B) + beta * C, where C is not read when beta is
    zero. *)
Definition cublasSgemm_checked (transa transb : bool) (m n k : nat)
    (alpha : T) (A lda B ldb : nat) (beta : T) (C ldc : nat) (w : World)
    : option World :=
  if sgemm_args_ok transa transb m n k lda ldb ldc then
    Some {| heap := fun a =>
              match locate C ldc m n a with
              | Some (i, j) =>
                  if is_zero beta then
                    alpha *!
                      sum_n k (fun p =>
                        heap w (if transa then A + p + i * lda
                                else A + i + p * lda) *!
                        heap w (if transb then B + j + p * ldb
                                else B + p + j * ldb))
                  else
                    alpha *!
                      sum_n k (fun p =>
                        heap w (if transa then A + p + i * lda
                                else A + i + p * lda) *!
                        heap w (if transb then B + j + p * ldb
                                else B + p + j * ldb))
                    +! beta *! heap w a
              | None => heap w a
              end;
            trace := trace w ++
              [Sgemm transa transb m n k A lda B ldb C ldc] |}
  else None.

(** The accelerator variants of the three entry points, every library call
    under [CUBLAS_CHECK]. *)
Definition MatrixMultiply_GPU_checked (l r y : Tensor) (acc_scalar : T)
    (w : World) : option World :=
  if (bd (d l) =? 1) && (bd (d r) =? bd (d y)) then
    cublasSgemm_checked false false
      (rows (d y)) (cols (d y) * batch_elems (d y)) (cols (d l))
      one (v l) (rows (d l)) (v r) (rows (d r))
      acc_scalar (v y) (rows (d y)) w
  else
    for_loop (bd (d y)) 0 (fun b w =>
      match batch_ptr l b, batch_ptr r b, batch_ptr y b with
      | Some lp, Some rp, Some yp =>
          cublasSgemm_checked false false
            (rows (d y)) (cols (d y)) (cols (d l))
            one lp (rows (d l)) rp (rows (d r))
            acc_scalar yp (rows (d y)) w
      | _, _, _ => None
      end) w.

Definition MatrixTranspMultiplyAcc_GPU_checked (l r y : Tensor) (w : World)
    : option World :=
  let max_b := Nat.max (bd (d l)) (bd (d r)) in
  if (bd (d l) =? 1) && (bd (d y) =? bd (d r)) then
    cublasSgemm_checked true false
      (rows (d y)) (cols (d y) * batch_elems (d y)) (rows (d l))
      one (v l) (rows (d l)) (v r) (rows (d r))
      one (v y) (rows (d y)) w
  else
    for_loop max_b 0 (fun b w =>
      match batch_ptr l b, batch_ptr r b, batch_ptr y b with
      | Some lp, Some rp, Some yp =>
          cublasSgemm_checked true false
            (rows (d y)) (cols (d y)) (rows (d l))
            one lp (rows (d l)) rp (rows (d r))
            one yp (rows (d y)) w
      | _, _, _ => None
      end) w.

Definition MatrixMultiplyTranspAcc_GPU_checked (l r y : Tensor) (w : World)
    : option World :=
  let max_b := Nat.max (bd (d l)) (bd (d r)) in
  if (bd (d y) =? 1) && (bd (d l) =? bd (d r)) then
    cublasSgemm_checked false true
      (rows (d y)) (cols (d y)) (cols (d l) * batch_elems (d l))
      one (v l) (rows (d l)) (v r) (rows (d r))
      one (v y) (rows (d y)) w
  else
    for_loop max_b 0 (fun b w =>
      match batch_ptr l b, batch_ptr r b, batch_ptr y b with
      | Some lp, Some rp, Some yp =>
          cublasSgemm_checked false true
            (rows (d y)) (cols (d y)) (cols (d l))
            one lp (rows (d l)) rp (rows (d r))
            one yp (rows (d y)) w
      | _, _, _ => None
      end) w.

(** The loop body of the checked accelerator variants, by transposition
    flags. *)
Definition gpu_body_checked (ta tb : bool) (K : nat) (beta : T)
    (l r y : Tensor) (b : nat) (w : World) : option World :=
  match batch_ptr l b, batch_ptr r b, batch_ptr y b with
  | Some lp, Some rp, Some yp =>
      cublasSgemm_checked ta tb (rows (d y)) (cols (d y)) K
        one lp (rows (d l)) rp (rows (d r)) beta yp (rows (d y)) w
  | _, _, _ => None
  end.

(** An entry point on a backend, the accelerator calls under their check. *)
Definition run_checked (be : Backend) (ep : EntryPoint) (l r y : Tensor)
    : World -> option World :=
  match be, ep with
  | CPU, _ => run CPU ep l r y
  | GPU, Forward acc_scalar => MatrixMultiply_GPU_checked l r y acc_scalar
  | GPU, TranspLeft => MatrixTranspMultiplyAcc_GPU_checked l r y
  | GPU, TranspRight => MatrixMultiplyTranspAcc_GPU_checked l r y
  end.

End Kernels.

(** The multiply call of batch index [b] of a loop, per backend. *)
Definition batch_event (be : Backend) (ta tb : bool) (l r y : Tensor)
    (b : nat) : Event :=
  match be with
  | GPU =>
      Sgemm ta tb (rows (d y)) (cols (d y))
        (if ta then rows (d l) else cols (d l))
        (batch_base l b) (rows (d l)) (batch_base r b) (rows (d r))
        (batch_base y b) (rows (d y))
  | CPU =>
      EigenProduct (mkMap (batch_base y b) (rows (d y)) (cols (d y)))
        (if ta then Transpose (mkMap (batch_base l b) (rows (d l)) (cols (d l)))
         else Plain (mkMap (batch_base l b) (rows (d l)) (cols (d l))))
        (if tb then Transpose (mkMap (batch_base r b) (rows (d r)) (cols (d r)))
         else Plain (mkMap (batch_base r b) (rows (d r)) (cols (d r))))
  end.

(** The single multiply call over the right operand and the output taken as
    wide matrices of cols * batch_count columns, per backend. *)
Definition wide_cols_event (be : Backend) (ta : bool) (l r y : Tensor)
    : Event :=
  match be with
  | GPU =>
      Sgemm ta false (rows (d y)) (cols (d y) * bd (d y))
        (if ta then rows (d l) else cols (d l))
        (v l) (rows (d l)) (v r) (rows (d r)) (v y) (rows (d y))
  | CPU =>
      EigenProduct (mkMap (v y) (rows (d y)) (cols (d y) * bd (d y)))
        (if ta then Transpose (mkMap (v l) (rows (d l)) (cols (d l)))
         else Plain (mkMap (v l) (rows (d l)) (cols (d l))))
        (Plain (mkMap (v r) (rows (d r)) (cols (d r) * bd (d r))))
  end.

(** The single multiply call over both operands taken as wide matrices of
    cols * batch_count columns, the right one transposed, per backend. *)
Definition wide_inner_event (be : Backend) (l r y : Tensor) : Event :=
  match be with
  | GPU =>
      Sgemm false true (rows (d y)) (cols (d y)) (cols (d l) * bd (d l))
        (v l) (rows (d l)) (v r) (rows (d r)) (v y) (rows (d y))
  | CPU =>
      EigenProduct (mkMap (v y) (rows (d y)) (cols (d y)))
        (Plain (mkMap (v l) (rows (d l)) (cols (d l) * bd (d l))))
        (Transpose (mkMap (v r) (rows (d r)) (cols (d r) * bd (d r))))
  end.

(** An operand of an Eigen product from a transposition flag. *)
Definition view (t : bool) (A : Map) : MatExpr :=
  if t then Transpose A else Plain A.

(** The shapes of op(L) * op(R) accumulated into Y agree: inner dimensions,
    rows and columns. *)
Definition shapes_ok (ta tb : bool) (l r y : Tensor) : Prop :=
  (if ta then rows (d l) else cols (d l)) =
    (if tb then cols (d r) else rows (d r)) /\
  rows (d y) = (if ta then cols (d l) else rows (d l)) /\
  cols (d y) = (if tb then rows (d r) else cols (d r)).

(** Inner dimension of op(L) * op(R). *)
Definition inner (ta : bool) (l : Tensor) : nat :=
  if ta then rows (d l) else cols (d l).

(** Every batch index below [n] addresses a batch element of [t]. *)
Definition reaches (t : Tensor) (n : nat) : Prop :=
  bd (d t) = 1 \/ n <= bd (d t).

(** Address [a] belongs to the buffer of [t]. *)
Definition in_buffer (t : Tensor) (a : nat) : Prop :=
  v t <= a < v t + size t.

(** The buffers of two tensors do not overlap. *)
Definition separate (t1 t2 : Tensor) : Prop :=
  v t1 + size t1 <= v t2 \/ v t2 + size t2 <= v t1.

(** ** Concrete calls *)

(** All of memory holds the address of the cell; no call issued yet. *)
Definition ramp : @World Z := mkWorld (fun a => Z.of_nat a) [].


(** The scenario of the specification (section 8): L 2x3 of batch count 1,
    R 3x4 and Y 2x4 of batch count 5. *)
Definition fwd_l : Tensor := mkTensor (mkDim 2 3 1) 0.
Definition fwd_r : Tensor := mkTensor (mkDim 3 4 5) 6.
Definition fwd_y : Tensor := mkTensor (mkDim 2 4 5) 66.

(** Forward product with all batch counts equal: L 2x3, R 3x2, Y 2x2 of
    batch count 2. *)
Definition eqb_l : Tensor := mkTensor (mkDim 2 3 2) 0.
Definition eqb_r : Tensor := mkTensor (mkDim 3 2 2) 12.
Definition eqb_y : Tensor := mkTensor (mkDim 2 2 2) 24.

(** The shapes the scenario of the specification (section 8) lists, before
    their adjustment to L * R^T: L 3x4 and R 3x1 of batch count 2, Y 4x1 of
    batch count 1. *)
Definition acc_l : Tensor := mkTensor (mkDim 3 4 2) 0.
Definition acc_r : Tensor := mkTensor (mkDim 3 1 2) 24.
Definition acc_y : Tensor := mkTensor (mkDim 4 1 1) 30.




(** A loop of [n] scaled accumulates of op(L) * op(R) into Y is well
    formed: shapes agree, every index below [n] addresses a batch element
    of each tensor, and L and R are stored apart from Y. *)
Definition acc_ready (ta tb : bool) (l r y : Tensor) (n : nat) : Prop :=
  shapes_ok ta tb l r y /\ reaches l n /\ reaches r n /\ reaches y n /\
  separate y l /\ separate y r.


(** Right-transpose product per batch element: L 2x3 of batch count 2,
    R 2x3 of batch count 1, Y 2x2 of batch count 2. *)
Definition pb_l : Tensor := mkTensor (mkDim 2 3 2) 0.
Definition pb_r : Tensor := mkTensor (mkDim 2 3 1) 12.
Definition pb_y : Tensor := mkTensor (mkDim 2 2 2) 24.


(** Operands with an empty contraction dimension: L 2x0, R 0x2, Y 2x2, of
    batch count 2. *)
Definition nil_l : Tensor := mkTensor (mkDim 2 0 2) 0.
Definition nil_r : Tensor := mkTensor (mkDim 0 2 2) 0.
Definition nil_y : Tensor := mkTensor (mkDim 2 2 2) 8.

(** Every batch index of the loop of an entry point addresses a batch
    element of each tensor: batch count 1, or at least the loop bound. *)
Definition batches_in_range {T : Type} (ep : @EntryPoint T) (l r y : Tensor)
    : Prop :=
  reaches l (loop_count ep l r y) /\ reaches r (loop_count ep l r y) /\
  reaches y (loop_count ep l r y).

(** The accumulating scenario with the shapes adjusted to L * R^T: L 4x3
    and R 1x3 of batch count 2, into Y = acc_y of shape 4x1. *)
Definition adj_l : Tensor := mkTensor (mkDim 4 3 2) 0.
Definition adj_r : Tensor := mkTensor (mkDim 1 3 2) 24.

(** Operands of MatrixMultiplyTranspAcc with no column: L 2x0 and R 2x0 of
    batch count 2, Y = nil_y of shape 2x2. *)
Definition noc_l : Tensor := mkTensor (mkDim 2 0 2) 0.
Definition noc_r : Tensor := mkTensor (mkDim 2 0 2) 0.

(** Integers with a not-a-number value, [None], that addition and
    multiplication propagate as IEEE arithmetic propagates NaN: in
    particular 0 * NaN is NaN. *)
Definition nan_add (x y : option Z) : option Z :=
  match x, y with
  | Some a, Some b => Some (a + b)%Z
  | _, _ => None
  end.

Definition nan_mul (x y : option Z) : option Z :=
  match x, y with
  | Some a, Some b => Some (a * b)%Z
  | _, _ => None
  end.

#[export] Instance NaN_Scalar : Scalar (option Z) :=
  {| zero := Some 0%Z; one := Some 1%Z; add := nan_add; mul := nan_mul |}.

#[export] Instance NaN_ZeroTest : ZeroTest (option Z) :=
  {| is_zero := fun x => match x with Some 0%Z => true | _ => false end |}.

(** L = (2), R = (3), both 1x1, and a 1x1 output that holds NaN. *)
Definition nan_l : Tensor := mkTensor (mkDim 1 1 1) 0.
Definition nan_r : Tensor := mkTensor (mkDim 1 1 1) 1.
Definition nan_y : Tensor := mkTensor (mkDim 1 1 1) 2.

Definition nan_world : @World (option Z) :=
  mkWorld (fun a =>
             match a with
             | 0 => Some 2%Z
             | 1 => Some 3%Z
             | 2 => None
             | _ => Some 0%Z
             end) [].

(** As [nan_world], the output holding 7 in place of NaN. *)
Definition num_world : @World (option Z) :=
  mkWorld (fun a =>
             match a with
             | 0 => Some 2%Z
             | 1 => Some 3%Z
             | 2 => Some 7%Z
             | _ => Some 0%Z
             end) [].


(** Side conditions on concrete tensors, by evaluation. *)
Ltac concrete := cbv; lia.

(** ** Properties *)

Lemma for_loop_snoc (W : Type) (body : nat -> W -> option W) (c from : nat)
    (w : W) :
  for_loop (S c) from body w =
  match for_loop c from body w with
  | Some w' => body (from + c) w'
  | None => None
  end.
Proof.
  revert from w; induction c as [|c IH]; intros from w.
  - simpl. rewrite Nat.add_0_r. destruct (body from w); reflexivity.
  - change (for_loop (S (S c)) from body w)
      with (match body from w with
            | Some w' => for_loop (S c) (S from) body w'
            | None => None end).
    change (for_loop (S c) from body w)
      with (match body from w with
            | Some w' => for_loop c (S from) body w'
            | None => None end).
    destruct (body from w) as [w1|]; [|reflexivity].
    rewrite IH. replace (S from + c) with (from + S c) by lia. reflexivity.
Qed.

(** *** Column-major addressing *)

Lemma locate_hit (base m n i j : nat) :
  i < m -> j < n -> locate base m m n (base + i + j * m) = Some (i, j).
Proof.
  intros Hi Hj. unfold locate.
  replace (base + i + j * m - base) with (i + j * m) by lia.
  rewrite Nat.Div0.mod_add, Nat.div_add by lia.
  rewrite Nat.mod_small, Nat.div_small by lia. simpl.
  replace (base <=? base + i + j * m) with true
    by (symmetry; apply Nat.leb_le; lia).
  replace (i <? m) with true by (symmetry; apply Nat.ltb_lt; lia).
  replace (j <? n) with true by (symmetry; apply Nat.ltb_lt; lia).
  reflexivity.
Qed.

Lemma locate_Some (base m n a i j : nat) :
  locate base m m n a = Some (i, j) ->
  a = base + i + j * m /\ i < m /\ j < n.
Proof.
  unfold locate.
  destruct (base <=? a) eqn:E1; simpl; [|discriminate].
  destruct ((a - base) mod m <? m) eqn:E2; simpl; [|discriminate].
  destruct ((a - base) / m <? n) eqn:E3; [|discriminate].
  intros E; injection E as <- <-.
  apply Nat.leb_le in E1. apply Nat.ltb_lt in E2. apply Nat.ltb_lt in E3.
  split; [|split]; try assumption.
  pose proof (Nat.div_mod_eq (a - base) m). lia.
Qed.

Lemma locate_None (base m n a : nat) :
  locate base m m n a = None -> a < base \/ base + m * n <= a.
Proof.
  unfold locate.
  destruct (base <=? a) eqn:E1; simpl.
  2:{ intros _. apply Nat.leb_gt in E1. lia. }
  apply Nat.leb_le in E1.
  destruct ((a - base) mod m <? m) eqn:E2; simpl.
  2:{ intros _. apply Nat.ltb_ge in E2. destruct m as [|m'].
      - lia.
      - pose proof (Nat.mod_upper_bound (a - base) (S m')). lia. }
  destruct ((a - base) / m <? n) eqn:E3; [discriminate|].
  intros _. apply Nat.ltb_ge in E3. apply Nat.ltb_lt in E2.
  pose proof (Nat.div_mod_eq (a - base) m). nia.
Qed.

Lemma locate_outside (base m n a : nat) :
  a < base \/ base + m * n <= a -> locate base m m n a = None.
Proof.
  intros Ha. destruct (locate base m m n a) as [[i j]|] eqn:E; [|reflexivity].
  apply locate_Some in E. nia.
Qed.


Section Properties.

Context {T : Type} `{Scalar T}.

Hypothesis sc_add_comm : forall x y : T, x +! y = y +! x.
Hypothesis sc_add_assoc : forall x y z : T, x +! (y +! z) = (x +! y) +! z.
Hypothesis sc_add_0_l : forall x : T, zero +! x = x.
Hypothesis sc_mul_1_l : forall x : T, one *! x = x.
Hypothesis sc_mul_0_l : forall x : T, zero *! x = zero.

Implicit Types (h : @mem T) (w : @World T).

(** *** Sums *)

Lemma sum_n_ext (k : nat) (f g : nat -> T) :
  (forall p, p < k -> f p = g p) -> sum_n k f = sum_n k g.
Proof.
  induction k as [|k IH]; intros E; simpl; [reflexivity|].
  rewrite IH by (intros; apply E; lia). rewrite E by lia. reflexivity.
Qed.

Lemma sc_add_0_r (x : T) : x +! zero = x.
Proof. rewrite sc_add_comm. apply sc_add_0_l. Qed.

Lemma sum_n_app (a b : nat) (f : nat -> T) :
  sum_n (a + b) f = sum_n a f +! sum_n b (fun p => f (a + p)).
Proof.
  induction b as [|b IH].
  - rewrite Nat.add_0_r. simpl. symmetry. apply sc_add_0_r.
  - replace (a + S b) with (S (a + b)) by lia. simpl.
    rewrite IH. symmetry. apply sc_add_assoc.
Qed.

Lemma sum_n_blocks (n K : nat) (f : nat -> T) :
  sum_n (K * n) f = sum_n n (fun b => sum_n K (fun p => f (b * K + p))).
Proof.
  induction n as [|n IH].
  - rewrite Nat.mul_0_r. reflexivity.
  - replace (K * S n) with (K * n + K) by lia.
    rewrite sum_n_app, IH. simpl.
    f_equal. apply sum_n_ext. intros p _. f_equal. lia.
Qed.

(** Accumulating [g 0 .. g (c-1)] onto [x] one after the other. *)
Lemma sum_n_shift (c : nat) (x : T) (g : nat -> T) :
  x +! sum_n (S c) g = (x +! sum_n c g) +! g c.
Proof. simpl. apply sc_add_assoc. Qed.

(** *** One scaled accumulate *)

Lemma dotp_ext (ta tb : bool) (K A lda B ldb : nat) h1 h2 (i j : nat) :
  (forall p, p < K ->
     h1 (if ta then A + p + i * lda else A + i + p * lda) =
     h2 (if ta then A + p + i * lda else A + i + p * lda)) ->
  (forall p, p < K ->
     h1 (if tb then B + j + p * ldb else B + p + j * ldb) =
     h2 (if tb then B + j + p * ldb else B + p + j * ldb)) ->
  dotp ta tb K A lda B ldb h1 i j = dotp ta tb K A lda B ldb h2 i j.
Proof.
  intros EA EB. unfold dotp. apply sum_n_ext. intros p Hp.
  rewrite EA, EB by assumption. reflexivity.
Qed.

Lemma gemm_upd_ext (ta tb : bool) (M N K : nat) (beta : T)
    (A lda B ldb C : nat) h1 h2 :
  (forall a, h1 a = h2 a) ->
  forall a, gemm_upd ta tb M N K beta A lda B ldb C h1 a =
            gemm_upd ta tb M N K beta A lda B ldb C h2 a.
Proof.
  intros E a. unfold gemm_upd.
  destruct (locate C M M N a) as [[i j]|]; [|apply E].
  rewrite E. f_equal. apply dotp_ext; intros; apply E.
Qed.

Lemma heap_cublasSgemm (ta tb : bool) (M N K : nat) (beta : T)
    (A lda B ldb C : nat) w (a : nat) :
  heap (cublasSgemm ta tb M N K one A lda B ldb beta C M w) a =
  gemm_upd ta tb M N K beta A lda B ldb C (heap w) a.
Proof.
  unfold cublasSgemm, gemm_upd, dotp. simpl.
  destruct (locate C M M N a) as [[i j]|]; [|reflexivity].
  rewrite sc_mul_1_l. apply sc_add_comm.
Qed.

Lemma trace_cublasSgemm (ta tb : bool) (M N K : nat) (alpha beta : T)
    (A lda B ldb C ldc : nat) w :
  trace (cublasSgemm ta tb M N K alpha A lda B ldb beta C ldc w) =
  trace w ++ [Sgemm ta tb M N K A lda B ldb C ldc].
Proof. reflexivity. Qed.

Lemma noalias_add_product_view (ta tb : bool) (dst A B : Map) (K : nat) w :
  expr_cols (view ta A) = K ->
  expr_rows (view tb B) = K ->
  expr_rows (view ta A) = mrows dst ->
  expr_cols (view tb B) = mcols dst ->
  exists w',
    noalias_add_product dst (view ta A) (view tb B) w = Some w' /\
    (forall a, heap w' a =
       gemm_upd ta tb (mrows dst) (mcols dst) K one
         (data A) (mrows A) (data B) (mrows B) (data dst) (heap w) a) /\
    trace w' = trace w ++ [EigenProduct dst (view ta A) (view tb B)].
Proof.
  intros E1 E2 E3 E4. unfold noalias_add_product.
  rewrite E1, E2, E3, E4, !Nat.eqb_refl. simpl.
  eexists; split; [reflexivity|]. split; [|reflexivity].
  intros a. simpl. unfold gemm_upd, dotp.
  destruct (locate (data dst) (mrows dst) (mrows dst) (mcols dst) a)
    as [[i j]|]; [|reflexivity].
  rewrite sc_mul_1_l. f_equal. apply sum_n_ext. intros p _.
  destruct ta, tb; reflexivity.
Qed.

Lemma gemm_upd_outside (ta tb : bool) (M N K : nat) (beta : T)
    (A lda B ldb C : nat) h (a : nat) :
  a < C \/ C + M * N <= a ->
  gemm_upd ta tb M N K beta A lda B ldb C h a = h a.
Proof.
  intros Ha. unfold gemm_upd. rewrite locate_outside by assumption.
  reflexivity.
Qed.

Lemma gemm_upd_hit (ta tb : bool) (M N K : nat) (beta : T)
    (A lda B ldb C : nat) h (i j : nat) :
  i < M -> j < N ->
  gemm_upd ta tb M N K beta A lda B ldb C h (C + i + j * M) =
  beta *! h (C + i + j * M) +! dotp ta tb K A lda B ldb h i j.
Proof.
  intros Hi Hj. unfold gemm_upd. rewrite locate_hit by assumption.
  reflexivity.
Qed.

(** *** Batch addressing *)

Lemma batch_ptr_base (t : Tensor) (n b : nat) :
  reaches t n -> b < n -> batch_ptr t b = Some (batch_base t b).
Proof.
  unfold reaches, batch_ptr, batch_base. intros Hr Hb.
  destruct (bd (d t) =? 1) eqn:E.
  - rewrite Nat.add_0_r. reflexivity.
  - apply Nat.eqb_neq in E.
    replace (b <? bd (d t)) with true
      by (symmetry; apply Nat.ltb_lt; lia).
    reflexivity.
Qed.

Lemma batch_matrix_base (t : Tensor) (n b : nat) :
  reaches t n -> b < n ->
  batch_matrix t b = Some (mkMap (batch_base t b) (rows (d t)) (cols (d t))).
Proof.
  intros Hr Hb. unfold batch_matrix.
  rewrite (batch_ptr_base t n b Hr Hb). reflexivity.
Qed.

Lemma batch_base_in_buffer (t : Tensor) (n b i j : nat) :
  reaches t n -> b < n -> i < rows (d t) -> j < cols (d t) ->
  in_buffer t (batch_base t b + i + j * rows (d t)).
Proof.
  unfold reaches, in_buffer, batch_base, size, batch_size.
  intros Hr Hb Hi Hj.
  assert (Hin : i + j * rows (d t) < rows (d t) * cols (d t)) by nia.
  destruct (bd (d t) =? 1) eqn:E.
  - apply Nat.eqb_eq in E. rewrite E. lia.
  - apply Nat.eqb_neq in E.
    assert (Hb' : S b <= bd (d t)) by lia.
    pose proof (Nat.mul_le_mono_l _ _ (rows (d t) * cols (d t)) Hb').
    lia.
Qed.

(** *** Loops of scaled accumulates *)

Lemma gpu_body_step (ta tb : bool) (K : nat) (beta : T) (l r y : Tensor)
    (n b : nat) w :
  reaches l n -> reaches r n -> reaches y n -> b < n ->
  exists w',
    gpu_body ta tb K beta l r y b w = Some w' /\
    (forall a, heap w' a = batch_step ta tb K beta l r y b (heap w) a) /\
    trace w' = trace w ++
      [Sgemm ta tb (rows (d y)) (cols (d y)) K
         (batch_base l b) (rows (d l)) (batch_base r b) (rows (d r))
         (batch_base y b) (rows (d y))].
Proof.
  intros Hl Hr Hy Hb. unfold gpu_body.
  rewrite (batch_ptr_base l n b Hl Hb), (batch_ptr_base r n b Hr Hb),
    (batch_ptr_base y n b Hy Hb).
  eexists; split; [reflexivity|]. split; [|reflexivity].
  intros a. apply heap_cublasSgemm.
Qed.

Lemma cpu_body_step (ta tb : bool) (l r y : Tensor) (n b : nat) w :
  shapes_ok ta tb l r y ->
  reaches l n -> reaches r n -> reaches y n -> b < n ->
  exists w',
    cpu_body ta tb l r y b w = Some w' /\
    (forall a, heap w' a =
       batch_step ta tb (inner ta l) one l r y b (heap w) a) /\
    trace w' = trace w ++
      [EigenProduct (mkMap (batch_base y b) (rows (d y)) (cols (d y)))
         (view ta (mkMap (batch_base l b) (rows (d l)) (cols (d l))))
         (view tb (mkMap (batch_base r b) (rows (d r)) (cols (d r))))].
Proof.
  intros (S1 & S2 & S3) Hl Hr Hy Hb. unfold cpu_body.
  rewrite (batch_matrix_base l n b Hl Hb), (batch_matrix_base r n b Hr Hb),
    (batch_matrix_base y n b Hy Hb).
  apply (noalias_add_product_view ta tb
           (mkMap (batch_base y b) (rows (d y)) (cols (d y)))
           (mkMap (batch_base l b) (rows (d l)) (cols (d l)))
           (mkMap (batch_base r b) (rows (d r)) (cols (d r)))
           (inner ta l)).
  - destruct ta; reflexivity.
  - destruct ta, tb; simpl in *; unfold inner; lia.
  - destruct ta; simpl in *; lia.
  - destruct tb; simpl in *; lia.
Qed.

Lemma for_loop_iter (body : nat -> World -> option World)
    (st : nat -> mem -> mem) (ev : nat -> Event) (n : nat) :
  (forall b h1 h2, (forall a, h1 a = h2 a) ->
     forall a, st b h1 a = st b h2 a) ->
  (forall b w, b < n ->
     exists w', body b w = Some w' /\
       (forall a, heap w' a = st b (heap w) a) /\
       trace w' = trace w ++ [ev b]) ->
  forall c w, c <= n ->
  exists w', for_loop c 0 body w = Some w' /\
    (forall a, heap w' a = iter_upd c st (heap w) a) /\
    trace w' = trace w ++ map ev (seq 0 c).
Proof.
  intros Hext Hstep c. induction c as [|c IH]; intros w Hc.
  - exists w. simpl. rewrite app_nil_r. repeat split; reflexivity.
  - destruct (IH w) as (w1 & E1 & H1 & T1); [lia|].
    destruct (Hstep c w1) as (w2 & E2 & H2 & T2); [lia|].
    exists w2. rewrite for_loop_snoc, E1. split; [exact E2|]. split.
    + intros a. rewrite H2. apply Hext. exact H1.
    + rewrite T2, T1, seq_S, map_app, <- app_assoc. reflexivity.
Qed.

Lemma batch_step_ext (ta tb : bool) (K : nat) (beta : T) (l r y : Tensor)
    (b : nat) h1 h2 :
  (forall a, h1 a = h2 a) ->
  forall a, batch_step ta tb K beta l r y b h1 a =
            batch_step ta tb K beta l r y b h2 a.
Proof. intros E a. apply gemm_upd_ext. exact E. Qed.

(** *** Reads of a batch product stay inside the operands *)

Lemma batch_base_distinct (t : Tensor) (b : nat) :
  b < bd (d t) -> batch_base t b = v t + b * batch_size (d t).
Proof.
  intros Hb. unfold batch_base. destruct (bd (d t) =? 1) eqn:E.
  - apply Nat.eqb_eq in E. replace b with 0 by lia. reflexivity.
  - reflexivity.
Qed.

Lemma batch_base_bcast (t : Tensor) (b : nat) :
  bd (d t) = 1 -> batch_base t b = v t.
Proof.
  intros E. unfold batch_base. rewrite E. simpl. lia.
Qed.

Lemma read_l_in_buffer (ta : bool) (l y : Tensor) (n b i p : nat) :
  rows (d y) = (if ta then cols (d l) else rows (d l)) ->
  reaches l n -> b < n -> i < rows (d y) -> p < inner ta l ->
  in_buffer l (if ta then batch_base l b + p + i * rows (d l)
               else batch_base l b + i + p * rows (d l)).
Proof.
  intros S2 Hl Hb Hi Hp. unfold inner in Hp.
  destruct ta; apply (batch_base_in_buffer l n); auto; lia.
Qed.

Lemma read_r_in_buffer (ta tb : bool) (l r y : Tensor) (n b j p : nat) :
  shapes_ok ta tb l r y ->
  reaches r n -> b < n -> j < cols (d y) -> p < inner ta l ->
  in_buffer r (if tb then batch_base r b + j + p * rows (d r)
               else batch_base r b + p + j * rows (d r)).
Proof.
  intros (S1 & S2 & S3) Hr Hb Hj Hp. unfold inner in Hp.
  destruct tb; apply (batch_base_in_buffer r n); auto; lia.
Qed.

Lemma dotp_batch_ext (ta tb : bool) (l r y : Tensor) (n b i j : nat) h1 h2 :
  shapes_ok ta tb l r y -> reaches l n -> reaches r n -> b < n ->
  i < rows (d y) -> j < cols (d y) ->
  (forall a, in_buffer l a -> h1 a = h2 a) ->
  (forall a, in_buffer r a -> h1 a = h2 a) ->
  dotp ta tb (inner ta l) (batch_base l b) (rows (d l))
    (batch_base r b) (rows (d r)) h1 i j =
  dotp ta tb (inner ta l) (batch_base l b) (rows (d l))
    (batch_base r b) (rows (d r)) h2 i j.
Proof.
  intros Hs Hl Hr Hb Hi Hj EL ER. apply dotp_ext; intros p Hp.
  - apply EL. destruct Hs as (S1 & S2 & S3).
    eapply read_l_in_buffer; eassumption.
  - apply ER. eapply read_r_in_buffer; eassumption.
Qed.

Lemma separate_outside (y t : Tensor) (a : nat) :
  separate y t -> in_buffer t a -> a < v y \/ v y + size y <= a.
Proof. unfold separate, in_buffer. lia. Qed.

(** *** Closed form of a loop whose batch indices write distinct elements *)

Lemma iter_distinct (ta tb : bool) (beta : T) (l r y : Tensor) (n : nat) h :
  shapes_ok ta tb l r y -> bd (d y) = n ->
  reaches l n -> reaches r n -> separate y l -> separate y r ->
  forall c, c <= n ->
    (forall b i j, b < c -> i < rows (d y) -> j < cols (d y) ->
       iter_upd c (batch_step ta tb (inner ta l) beta l r y) h
         (batch_base y b + i + j * rows (d y)) =
       beta *! h (batch_base y b + i + j * rows (d y)) +!
       dotp ta tb (inner ta l) (batch_base l b) (rows (d l))
         (batch_base r b) (rows (d r)) h i j) /\
    (forall a, a < v y \/ v y + c * batch_size (d y) <= a ->
       iter_upd c (batch_step ta tb (inner ta l) beta l r y) h a = h a).
Proof.
  intros Hs Hn Hl Hr Syl Syr c. induction c as [|c IH]; intros Hc.
  - split; [intros; lia | reflexivity].
  - destruct IH as [IH1 IH2]; [lia|].
    assert (Hbase : batch_base y c = v y + c * batch_size (d y))
      by (apply batch_base_distinct; lia).
    assert (Hsz : c * batch_size (d y) + batch_size (d y) <= size y).
    { unfold size. rewrite Hn.
      pose proof (Nat.mul_le_mono_l _ _ (batch_size (d y)) Hc). lia. }
    assert (Hfar : forall a, a < v y \/ v y + size y <= a ->
              iter_upd c (batch_step ta tb (inner ta l) beta l r y) h a
              = h a).
    { intros a Ha. apply IH2. lia. }
    split.
    + intros b i j Hb Hi Hj. simpl. unfold batch_step at 1.
      assert (Hin : i + j * rows (d y) < batch_size (d y))
        by (unfold batch_size; nia).
      destruct (Nat.eq_dec b c) as [->|Hne].
      * rewrite gemm_upd_hit by assumption.
        rewrite IH2 by lia. f_equal.
        apply (dotp_batch_ext ta tb l r y n); try assumption; try lia.
        -- intros a Ha. apply Hfar.
           apply (separate_outside y l a Syl Ha).
        -- intros a Ha. apply Hfar.
           apply (separate_outside y r a Syr Ha).
      * rewrite gemm_upd_outside.
        -- apply IH1; [lia|assumption..].
        -- left. rewrite Hbase.
           rewrite (batch_base_distinct y b) by lia.
           assert (Hb' : S b <= c) by lia.
           pose proof (Nat.mul_le_mono_r _ _ (batch_size (d y)) Hb'). lia.
    + intros a Ha. simpl. unfold batch_step at 1.
      rewrite gemm_upd_outside.
      * apply IH2. lia.
      * rewrite Hbase. fold (batch_size (d y)). lia.
Qed.

(** *** Closed form of a loop whose batch indices all write the one element
    of the output *)

Lemma iter_same (ta tb : bool) (l r y : Tensor) (n : nat) h :
  shapes_ok ta tb l r y -> bd (d y) = 1 ->
  reaches l n -> reaches r n -> separate y l -> separate y r ->
  forall c, c <= n ->
    (forall i j, i < rows (d y) -> j < cols (d y) ->
       iter_upd c (batch_step ta tb (inner ta l) one l r y) h
         (v y + i + j * rows (d y)) =
       h (v y + i + j * rows (d y)) +!
       sum_n c (fun b =>
         dotp ta tb (inner ta l) (batch_base l b) (rows (d l))
           (batch_base r b) (rows (d r)) h i j)) /\
    (forall a, a < v y \/ v y + batch_size (d y) <= a ->
       iter_upd c (batch_step ta tb (inner ta l) one l r y) h a = h a).
Proof.
  intros Hs Hy Hl Hr Syl Syr c. induction c as [|c IH]; intros Hc.
  - split; [|reflexivity]. intros. simpl. symmetry. apply sc_add_0_r.
  - destruct IH as [IH1 IH2]; [lia|].
    assert (Hsz : size y = batch_size (d y))
      by (unfold size; rewrite Hy; lia).
    split.
    + intros i j Hi Hj. simpl iter_upd. unfold batch_step at 1.
      rewrite (batch_base_bcast y c Hy).
      rewrite gemm_upd_hit by assumption.
      rewrite sc_mul_1_l, IH1 by assumption.
      rewrite sum_n_shift. f_equal.
      apply (dotp_batch_ext ta tb l r y n); try assumption; try lia.
      * intros a Ha. apply IH2. rewrite <- Hsz.
        apply (separate_outside y l a Syl Ha).
      * intros a Ha. apply IH2. rewrite <- Hsz.
        apply (separate_outside y r a Syr Ha).
    + intros a Ha. simpl. unfold batch_step at 1.
      rewrite (batch_base_bcast y c Hy).
      rewrite gemm_upd_outside by (fold (batch_size (d y)); lia).
      apply IH2. assumption.
Qed.

(** *** Every scalar of a buffer is an entry of a batch element *)

Lemma in_buffer_dec (t : Tensor) (a : nat) :
  {in_buffer t a} + {a < v t \/ v t + size t <= a}.
Proof.
  unfold in_buffer.
  destruct (le_lt_dec (v t) a); destruct (le_lt_dec (v t + size t) a);
    (left; lia) || (right; lia).
Qed.

Lemma buffer_decompose (t : Tensor) (a : nat) :
  in_buffer t a ->
  exists b i j, b < bd (d t) /\ i < rows (d t) /\ j < cols (d t) /\
    a = batch_base t b + i + j * rows (d t).
Proof.
  unfold in_buffer, size, batch_size. intros [Hlo Hhi].
  set (R := rows (d t)) in *. set (C := cols (d t)) in *.
  set (off := a - v t).
  assert (HRC : R * C <> 0) by nia.
  assert (HR : R <> 0) by nia.
  assert (Hoff : off < R * C * bd (d t)) by (unfold off; lia).
  exists (off / (R * C)), ((off mod (R * C)) mod R), ((off mod (R * C)) / R).
  assert (Hb : off / (R * C) < bd (d t))
    by (apply Nat.Div0.div_lt_upper_bound; lia).
  pose proof (Nat.mod_upper_bound off (R * C) HRC) as Hrem.
  split; [exact Hb|]. split; [apply Nat.mod_upper_bound; exact HR|].
  split; [apply Nat.Div0.div_lt_upper_bound; lia|].
  rewrite (batch_base_distinct t _ Hb). unfold batch_size. fold R C.
  pose proof (Nat.div_mod_eq off (R * C)).
  pose proof (Nat.div_mod_eq (off mod (R * C)) R).
  unfold off in *. lia.
Qed.

Lemma heap_eq_by_elems (t : Tensor) h1 h2 :
  (forall b i j, b < bd (d t) -> i < rows (d t) -> j < cols (d t) ->
     h1 (batch_base t b + i + j * rows (d t)) =
     h2 (batch_base t b + i + j * rows (d t))) ->
  (forall a, a < v t \/ v t + size t <= a -> h1 a = h2 a) ->
  forall a, h1 a = h2 a.
Proof.
  intros Hin Hout a. destruct (in_buffer_dec t a) as [Ha|Ha].
  - destruct (buffer_decompose t a Ha) as (b & i & j & Hb & Hi & Hj & ->).
    apply Hin; assumption.
  - apply Hout. exact Ha.
Qed.

(** *** The single wide call *)

(** Collapse along the columns of the right operand and of the output. *)
Lemma wide_cols_elem (ta : bool) (beta : T) (l r y : Tensor) h (b i j : nat) :
  shapes_ok ta false l r y -> bd (d l) = 1 -> bd (d r) = bd (d y) ->
  b < bd (d y) -> i < rows (d y) -> j < cols (d y) ->
  gemm_upd ta false (rows (d y)) (cols (d y) * batch_elems (d y))
    (inner ta l) beta (v l) (rows (d l)) (v r) (rows (d r)) (v y) h
    (batch_base y b + i + j * rows (d y)) =
  beta *! h (batch_base y b + i + j * rows (d y)) +!
  dotp ta false (inner ta l) (batch_base l b) (rows (d l))
    (batch_base r b) (rows (d r)) h i j.
Proof.
  intros (S1 & S2 & S3) Hl Hr Hb Hi Hj. unfold batch_elems.
  rewrite (batch_base_distinct y b Hb), (batch_base_bcast l b Hl).
  rewrite (batch_base_distinct r b) by lia. unfold batch_size.
  replace (v y + b * (rows (d y) * cols (d y)) + i + j * rows (d y))
    with (v y + i + (b * cols (d y) + j) * rows (d y)) by lia.
  rewrite gemm_upd_hit by nia. f_equal.
  unfold dotp. apply sum_n_ext. intros p _. f_equal. f_equal. nia.
Qed.

Lemma wide_cols_outside (ta : bool) (K : nat) (beta : T) (l r y : Tensor) h
    (a : nat) :
  a < v y \/ v y + size y <= a ->
  gemm_upd ta false (rows (d y)) (cols (d y) * batch_elems (d y))
    K beta (v l) (rows (d l)) (v r) (rows (d r)) (v y) h a = h a.
Proof.
  intros Ha. apply gemm_upd_outside.
  unfold size, batch_size, batch_elems in *. nia.
Qed.

(** Collapse along the inner dimension: the contributions of the batch
    elements are summed. *)
Lemma wide_inner_elem (l r y : Tensor) h (i j : nat) :
  shapes_ok false true l r y -> bd (d l) = bd (d r) ->
  i < rows (d y) -> j < cols (d y) ->
  gemm_upd false true (rows (d y)) (cols (d y))
    (cols (d l) * batch_elems (d l)) one
    (v l) (rows (d l)) (v r) (rows (d r)) (v y) h
    (v y + i + j * rows (d y)) =
  h (v y + i + j * rows (d y)) +!
  sum_n (bd (d l)) (fun b =>
    dotp false true (cols (d l)) (batch_base l b) (rows (d l))
      (batch_base r b) (rows (d r)) h i j).
Proof.
  intros (S1 & S2 & S3) Hlr Hi Hj. unfold batch_elems.
  rewrite gemm_upd_hit by assumption. rewrite sc_mul_1_l. f_equal.
  unfold dotp. rewrite sum_n_blocks. apply sum_n_ext. intros b Hb.
  apply sum_n_ext. intros p _.
  rewrite (batch_base_distinct l b Hb).
  rewrite (batch_base_distinct r b) by lia. unfold batch_size.
  simpl in S1. f_equal; f_equal; nia.
Qed.

Lemma wide_cols_per_batch (ta : bool) (beta : T) (l r y : Tensor) h :
  shapes_ok ta false l r y -> bd (d l) = 1 -> bd (d r) = bd (d y) ->
  separate y l -> separate y r ->
  forall a,
    gemm_upd ta false (rows (d y)) (cols (d y) * batch_elems (d y))
      (inner ta l) beta (v l) (rows (d l)) (v r) (rows (d r)) (v y) h a =
    iter_upd (bd (d y)) (batch_step ta false (inner ta l) beta l r y) h a.
Proof.
  intros Hs Hl Hr Syl Syr.
  destruct (iter_distinct ta false beta l r y (bd (d y)) h Hs eq_refl)
    with (c := bd (d y)) as [I1 I2];
    try assumption; try (unfold reaches; lia).
  apply (heap_eq_by_elems y).
  - intros b i j Hb Hi Hj. rewrite wide_cols_elem, I1 by assumption.
    reflexivity.
  - intros a Ha. rewrite wide_cols_outside by assumption.
    symmetry. apply I2. unfold size in Ha. lia.
Qed.

(** *** Scaling the output before the products *)

Lemma heap_tbvec_in (alpha : T) (t : Tensor) w (a : nat) :
  in_buffer t a -> heap (tbvec_scale alpha t w) a = alpha *! heap w a.
Proof.
  unfold in_buffer. intros Ha. simpl.
  replace (v t <=? a) with true by (symmetry; apply Nat.leb_le; lia).
  replace (a <? v t + size t) with true
    by (symmetry; apply Nat.ltb_lt; lia).
  reflexivity.
Qed.

Lemma heap_tbvec_out (alpha : T) (t : Tensor) w (a : nat) :
  a < v t \/ v t + size t <= a -> heap (tbvec_scale alpha t w) a = heap w a.
Proof.
  intros Ha. simpl.
  destruct (v t <=? a) eqn:E1; [|reflexivity].
  destruct (a <? v t + size t) eqn:E2; [|reflexivity].
  apply Nat.leb_le in E1. apply Nat.ltb_lt in E2. lia.
Qed.

Lemma scale_then_accumulate (alpha : T) (l r y : Tensor) w :
  shapes_ok false false l r y ->
  reaches l (bd (d y)) -> reaches r (bd (d y)) ->
  separate y l -> separate y r ->
  forall a,
    iter_upd (bd (d y)) (batch_step false false (cols (d l)) one l r y)
      (heap (tbvec_scale alpha y w)) a =
    forward_per_batch l r y alpha (heap w) a.
Proof.
  intros Hs Hl Hr Syl Syr. unfold forward_per_batch.
  destruct (iter_distinct false false one l r y (bd (d y))
              (heap (tbvec_scale alpha y w)) Hs eq_refl Hl Hr Syl Syr
              (bd (d y)) (le_n _)) as [I1 I2].
  destruct (iter_distinct false false alpha l r y (bd (d y))
              (heap w) Hs eq_refl Hl Hr Syl Syr
              (bd (d y)) (le_n _)) as [J1 J2].
  apply (heap_eq_by_elems y).
  - intros b i j Hb Hi Hj.
    change (cols (d l)) with (inner false l).
    rewrite I1, J1 by assumption.
    rewrite sc_mul_1_l, heap_tbvec_in
      by (apply (batch_base_in_buffer y (bd (d y)));
          unfold reaches; auto; lia).
    f_equal.
    apply (dotp_batch_ext false false l r y (bd (d y))); try assumption.
    + intros a Ha. apply heap_tbvec_out.
      apply (separate_outside y l a Syl Ha).
    + intros a Ha. apply heap_tbvec_out.
      apply (separate_outside y r a Syr Ha).
  - intros a Ha. change (cols (d l)) with (inner false l).
    rewrite I2, J2 by (unfold size in Ha; lia).
    apply heap_tbvec_out. exact Ha.
Qed.

(** *** MatrixMultiply against the per-batch reference *)

Lemma MatrixMultiply_heap (be : Backend) (l r y : Tensor) (alpha : T) w :
  shapes_ok false false l r y ->
  bd (d r) = bd (d y) -> bd (d l) = 1 \/ bd (d l) = bd (d y) ->
  separate y l -> separate y r ->
  exists w',
    MatrixMultiply be l r y alpha w = Some w' /\
    (forall a, heap w' a = forward_per_batch l r y alpha (heap w) a) /\
    trace w' = trace w ++
      (if bd (d l) =? 1 then [wide_cols_event be false l r y]
       else map (batch_event be false false l r y) (seq 0 (bd (d y)))).
Proof.
  intros Hs Hr Hl Syl Syr.
  assert (Rl : reaches l (bd (d y))) by (unfold reaches; lia).
  assert (Rr : reaches r (bd (d y))) by (unfold reaches; lia).
  assert (Ry : reaches y (bd (d y))) by (unfold reaches; lia).
  destruct be; simpl MatrixMultiply.
  - (* CPU *)
    unfold MatrixMultiply_CPU. rewrite Hr, Nat.eqb_refl, andb_true_r.
    cbv zeta.
    destruct (bd (d l) =? 1) eqn:E.
    + apply Nat.eqb_eq in E.
      destruct (noalias_add_product_view false false
                  (colbatch_matrix y) (operator_star l) (colbatch_matrix r)
                  (cols (d l)) (tbvec_scale alpha y w))
        as (w' & E' & H' & T').
      * reflexivity.
      * destruct Hs as (S1 & _). simpl in *. lia.
      * destruct Hs as (_ & S2 & _). simpl in *. lia.
      * destruct Hs as (_ & _ & S3). simpl in *.
        unfold batch_elems. rewrite S3, Hr. reflexivity.
      * exists w'. split; [exact E'|]. split.
        -- intros a. rewrite H'.
           etransitivity;
             [exact (wide_cols_per_batch false one l r y
                       (heap (tbvec_scale alpha y w)) Hs E Hr Syl Syr a)|].
           apply scale_then_accumulate; assumption.
        -- rewrite T'. reflexivity.
    + destruct (for_loop_iter (cpu_body false false l r y)
                  (batch_step false false (cols (d l)) one l r y)
                  (batch_event CPU false false l r y) (bd (d y)))
        with (c := bd (d y)) (w := tbvec_scale alpha y w)
        as (w' & E' & H' & T').
      * intros. apply batch_step_ext. assumption.
      * intros b w0 Hb.
        apply (cpu_body_step false false l r y (bd (d y)) b w0);
          assumption.
      * apply le_n.
      * exists w'. split; [exact E'|]. split.
        -- intros a. rewrite H'. apply scale_then_accumulate; assumption.
        -- rewrite T'. reflexivity.
  - (* GPU *)
    unfold MatrixMultiply_GPU. rewrite Hr, Nat.eqb_refl, andb_true_r.
    destruct (bd (d l) =? 1) eqn:E.
    + apply Nat.eqb_eq in E. eexists. split; [reflexivity|]. split.
      * intros a. rewrite heap_cublasSgemm.
        apply (wide_cols_per_batch false alpha l r y (heap w));
          assumption.
      * reflexivity.
    + destruct (for_loop_iter (gpu_body false false (cols (d l)) alpha l r y)
                  (batch_step false false (cols (d l)) alpha l r y)
                  (batch_event GPU false false l r y) (bd (d y)))
        with (c := bd (d y)) (w := w)
        as (w' & E' & H' & T').
      * intros. apply batch_step_ext. assumption.
      * intros b w0 Hb.
        apply (gpu_body_step false false (cols (d l)) alpha l r y
                 (bd (d y)) b w0); assumption.
      * apply le_n.
      * exists w'. split; [exact E'|]. split; [exact H'|].
        rewrite T'. reflexivity.
Qed.

(** *** The accumulating loops against the per-batch reference *)

Lemma loop_heap (be : Backend) (ta tb : bool) (l r y : Tensor) (n : nat) w :
  shapes_ok ta tb l r y -> reaches l n -> reaches r n -> reaches y n ->
  exists w',
    for_loop n 0
      (match be with
       | CPU => cpu_body ta tb l r y
       | GPU => gpu_body ta tb (inner ta l) one l r y
       end) w = Some w' /\
    (forall a, heap w' a =
       iter_upd n (batch_step ta tb (inner ta l) one l r y) (heap w) a) /\
    trace w' = trace w ++ map (batch_event be ta tb l r y) (seq 0 n).
Proof.
  intros Hs Hl Hr Hy.
  apply (for_loop_iter _ (batch_step ta tb (inner ta l) one l r y)
           (batch_event be ta tb l r y) n); [| |apply le_n].
  - intros. apply batch_step_ext. assumption.
  - intros b w0 Hb. destruct be.
    + destruct (cpu_body_step ta tb l r y n b w0 Hs Hl Hr Hy Hb)
        as (w' & E' & H' & T').
      exists w'. split; [exact E'|]. split; [exact H'|].
      rewrite T'. destruct ta, tb; reflexivity.
    + apply (gpu_body_step ta tb (inner ta l) one l r y n b w0);
        assumption.
Qed.

Lemma wide_inner_per_batch (l r y : Tensor) h :
  shapes_ok false true l r y -> bd (d y) = 1 -> bd (d l) = bd (d r) ->
  separate y l -> separate y r ->
  forall a,
    gemm_upd false true (rows (d y)) (cols (d y))
      (cols (d l) * batch_elems (d l)) one
      (v l) (rows (d l)) (v r) (rows (d r)) (v y) h a =
    iter_upd (bd (d l)) (batch_step false true (cols (d l)) one l r y) h a.
Proof.
  intros Hs Hy Hlr Syl Syr.
  destruct (iter_same false true l r y (bd (d l)) h Hs Hy)
    with (c := bd (d l)) as [I1 I2];
    try assumption; try (unfold reaches; lia).
  assert (Hsz : size y = batch_size (d y))
    by (unfold size; rewrite Hy; lia).
  apply (heap_eq_by_elems y).
  - intros b i j Hb Hi Hj. rewrite (batch_base_bcast y b Hy).
    rewrite wide_inner_elem by assumption.
    symmetry. apply I1; assumption.
  - intros a Ha. rewrite gemm_upd_outside
      by (unfold size, batch_size in *; rewrite Hy in Ha; lia).
    symmetry. apply I2. lia.
Qed.

Lemma MatrixTranspMultiplyAcc_heap (be : Backend) (l r y : Tensor) w :
  shapes_ok true false l r y ->
  reaches l (Nat.max (bd (d l)) (bd (d r))) ->
  reaches r (Nat.max (bd (d l)) (bd (d r))) ->
  reaches y (Nat.max (bd (d l)) (bd (d r))) ->
  separate y l -> separate y r ->
  exists w',
    MatrixTranspMultiplyAcc be l r y w = Some w' /\
    (forall a, heap w' a = transp_per_batch true false l r y (heap w) a) /\
    trace w' = trace w ++
      (if (bd (d l) =? 1) && (bd (d y) =? bd (d r))
       then [wide_cols_event be true l r y]
       else map (batch_event be true false l r y)
              (seq 0 (Nat.max (bd (d l)) (bd (d r))))).
Proof.
  intros Hs Hl Hr Hy Syl Syr. unfold transp_per_batch.
  destruct ((bd (d l) =? 1) && (bd (d y) =? bd (d r))) eqn:E.
  - pose proof E as E0. apply andb_prop in E. destruct E as [E1 E2].
    apply Nat.eqb_eq in E1. apply Nat.eqb_eq in E2.
    assert (Hn : Nat.max (bd (d l)) (bd (d r)) = bd (d y))
      by (unfold reaches in Hy; lia).
    rewrite Hn.
    destruct be; simpl MatrixTranspMultiplyAcc.
    + unfold MatrixTranspMultiplyAcc_CPU. cbv zeta.
      rewrite E0.
      destruct (noalias_add_product_view true false
                  (colbatch_matrix y) (operator_star l) (colbatch_matrix r)
                  (rows (d l)) w)
        as (w' & E' & H' & T').
      * reflexivity.
      * destruct Hs as (S1 & _). simpl in *. lia.
      * destruct Hs as (_ & S2 & _). simpl in *. lia.
      * destruct Hs as (_ & _ & S3). simpl in *.
        unfold batch_elems. rewrite S3, E2. reflexivity.
      * exists w'. split; [exact E'|]. split.
        -- intros a. rewrite H'.
           exact (wide_cols_per_batch true one l r y (heap w)
                    Hs E1 (eq_sym E2) Syl Syr a).
        -- rewrite T'. reflexivity.
    + unfold MatrixTranspMultiplyAcc_GPU. cbv zeta.
      rewrite E0.
      eexists. split; [reflexivity|]. split.
      * intros a. rewrite heap_cublasSgemm.
        exact (wide_cols_per_batch true one l r y (heap w)
                 Hs E1 (eq_sym E2) Syl Syr a).
      * reflexivity.
  - destruct (loop_heap be true false l r y
                (Nat.max (bd (d l)) (bd (d r))) w Hs Hl Hr Hy)
      as (w' & E' & H' & T').
    exists w'. split; [|split; assumption].
    destruct be; simpl MatrixTranspMultiplyAcc;
      [unfold MatrixTranspMultiplyAcc_CPU
      |unfold MatrixTranspMultiplyAcc_GPU];
      cbv zeta; rewrite E; exact E'.
Qed.

Lemma MatrixMultiplyTranspAcc_wide (be : Backend) (l r y : Tensor) w :
  shapes_ok false true l r y ->
  bd (d y) = 1 -> bd (d l) = bd (d r) ->
  exists w',
    MatrixMultiplyTranspAcc be l r y w = Some w' /\
    (forall a, heap w' a =
       gemm_upd false true (rows (d y)) (cols (d y))
         (cols (d l) * batch_elems (d l)) one
         (v l) (rows (d l)) (v r) (rows (d r)) (v y) (heap w) a) /\
    trace w' = trace w ++ [wide_inner_event be l r y].
Proof.
  intros Hs E1 E2.
  assert (E0 : (bd (d y) =? 1) && (bd (d l) =? bd (d r)) = true).
  { rewrite E1, E2, !Nat.eqb_refl. reflexivity. }
  destruct be; simpl MatrixMultiplyTranspAcc.
  - unfold MatrixMultiplyTranspAcc_CPU. cbv zeta. rewrite E0.
    destruct (noalias_add_product_view false true
                (operator_star y) (colbatch_matrix l) (colbatch_matrix r)
                (cols (d l) * bd (d l)) w)
      as (w' & E' & H' & T').
    + reflexivity.
    + destruct Hs as (S1 & _). simpl in *. unfold batch_elems.
      rewrite <- S1, E2. reflexivity.
    + destruct Hs as (_ & S2 & _). simpl in *. lia.
    + destruct Hs as (_ & _ & S3). simpl in *. lia.
    + exists w'. split; [exact E'|]. split; [exact H'|].
      rewrite T'. reflexivity.
  - unfold MatrixMultiplyTranspAcc_GPU. cbv zeta. rewrite E0.
    eexists. split; [reflexivity|]. split; [|reflexivity].
    intros a. apply heap_cublasSgemm.
Qed.

Lemma MatrixMultiplyTranspAcc_heap (be : Backend) (l r y : Tensor) w :
  shapes_ok false true l r y ->
  reaches l (Nat.max (bd (d l)) (bd (d r))) ->
  reaches r (Nat.max (bd (d l)) (bd (d r))) ->
  reaches y (Nat.max (bd (d l)) (bd (d r))) ->
  separate y l -> separate y r ->
  exists w',
    MatrixMultiplyTranspAcc be l r y w = Some w' /\
    (forall a, heap w' a = transp_per_batch false true l r y (heap w) a) /\
    trace w' = trace w ++
      (if (bd (d y) =? 1) && (bd (d l) =? bd (d r))
       then [wide_inner_event be l r y]
       else map (batch_event be false true l r y)
              (seq 0 (Nat.max (bd (d l)) (bd (d r))))).
Proof.
  intros Hs Hl Hr Hy Syl Syr. unfold transp_per_batch.
  destruct ((bd (d y) =? 1) && (bd (d l) =? bd (d r))) eqn:E.
  - apply andb_prop in E. destruct E as [E1 E2].
    apply Nat.eqb_eq in E1. apply Nat.eqb_eq in E2.
    assert (Hn : Nat.max (bd (d l)) (bd (d r)) = bd (d l)) by lia.
    rewrite Hn.
    destruct (MatrixMultiplyTranspAcc_wide be l r y w Hs E1 E2)
      as (w' & E' & H' & T').
    exists w'. split; [exact E'|]. split; [|exact T'].
    intros a. rewrite H'.
    exact (wide_inner_per_batch l r y (heap w) Hs E1 E2 Syl Syr a).
  - destruct (loop_heap be false true l r y
                (Nat.max (bd (d l)) (bd (d r))) w Hs Hl Hr Hy)
      as (w' & E' & H' & T').
    exists w'. split; [|split; assumption].
    destruct be; simpl MatrixMultiplyTranspAcc;
      [unfold MatrixMultiplyTranspAcc_CPU
      |unfold MatrixMultiplyTranspAcc_GPU];
      cbv zeta; rewrite E; exact E'.
Qed.

(** ** The claims *)





Lemma heap_zero_in (t : Tensor) w (a : nat) :
  in_buffer t a -> heap (zero_tensor t w) a = zero.
Proof.
  unfold in_buffer. intros Ha. simpl.
  replace (v t <=? a) with true by (symmetry; apply Nat.leb_le; lia).
  replace (a <? v t + size t) with true
    by (symmetry; apply Nat.ltb_lt; lia).
  reflexivity.
Qed.

Lemma heap_zero_out (t : Tensor) w (a : nat) :
  a < v t \/ v t + size t <= a -> heap (zero_tensor t w) a = heap w a.
Proof.
  intros Ha. simpl.
  destruct (v t <=? a) eqn:E1; [|reflexivity].
  destruct (a <? v t + size t) eqn:E2; [|reflexivity].
  apply Nat.leb_le in E1. apply Nat.ltb_lt in E2. lia.
Qed.

(** In exact arithmetic, where 0 * x = 0 for every scalar x (a law that a
    NaN or an infinity of [float] does not satisfy), MatrixMultiply with
    alpha = 0 leaves the memory that setting every element of Y to zero and
    then calling MatrixMultiply with alpha = 1 leaves. *)
Theorem MatrixMultiply_zero_scalar (be : Backend) (l r y : Tensor) w :
  cols (d l) = rows (d r) -> rows (d y) = rows (d l) ->
  cols (d y) = cols (d r) ->
  bd (d r) = bd (d y) -> bd (d l) = 1 \/ bd (d l) = bd (d y) ->
  separate y l -> separate y r ->
  exists w0 w1,
    MatrixMultiply be l r y zero w = Some w0 /\
    MatrixMultiply be l r y one (zero_tensor y w) = Some w1 /\
    forall a, heap w0 a = heap w1 a.
Proof.
  intros S1 S2 S3 Hr Hl Syl Syr.
  assert (Hs : shapes_ok false false l r y) by (repeat split; assumption).
  assert (Rl : reaches l (bd (d y))) by (unfold reaches; lia).
  assert (Rr : reaches r (bd (d y))) by (unfold reaches; lia).
  destruct (MatrixMultiply_heap be l r y zero w Hs Hr Hl Syl Syr)
    as (w0 & E0 & H0 & _).
  destruct (MatrixMultiply_heap be l r y one (zero_tensor y w)
              Hs Hr Hl Syl Syr) as (w1 & E1 & H1 & _).
  exists w0, w1. split; [exact E0|]. split; [exact E1|].
  intros a. rewrite H0, H1. unfold forward_per_batch.
  destruct (iter_distinct false false zero l r y (bd (d y)) (heap w)
              Hs eq_refl Rl Rr Syl Syr (bd (d y)) (le_n _)) as [I1 I2].
  destruct (iter_distinct false false one l r y (bd (d y))
              (heap (zero_tensor y w))
              Hs eq_refl Rl Rr Syl Syr (bd (d y)) (le_n _)) as [J1 J2].
  revert a. apply (heap_eq_by_elems y).
  - intros b i j Hb Hi Hj. change (cols (d l)) with (inner false l).
    rewrite I1, J1 by assumption.
    rewrite sc_mul_0_l, sc_mul_1_l, heap_zero_in
      by (apply (batch_base_in_buffer y (bd (d y)));
          unfold reaches; auto; lia).
    f_equal. symmetry.
    apply (dotp_batch_ext false false l r y (bd (d y))); try assumption.
    + intros a Ha. apply heap_zero_out.
      apply (separate_outside y l a Syl Ha).
    + intros a Ha. apply heap_zero_out.
      apply (separate_outside y r a Syr Ha).
  - intros a Ha. change (cols (d l)) with (inner false l).
    rewrite I2, J2 by (unfold size in Ha; lia).
    symmetry. apply heap_zero_out. exact Ha.
Qed.

(** *** Loops into a single batch element of the output *)




(** *** What a call may write *)

Lemma unchanged_refl (t : Tensor) w : unchanged_outside t w w.
Proof. intros a _. reflexivity. Qed.

Lemma unchanged_trans (t : Tensor) w1 w2 w3 :
  unchanged_outside t w1 w2 -> unchanged_outside t w2 w3 ->
  unchanged_outside t w1 w3.
Proof.
  intros H12 H23 a Ha. rewrite (H23 a Ha). apply H12. exact Ha.
Qed.

Lemma for_loop_invariant (R : World -> World -> Prop)
    (body : nat -> World -> option World) :
  (forall w, R w w) ->
  (forall w1 w2 w3, R w1 w2 -> R w2 w3 -> R w1 w3) ->
  (forall b w w', body b w = Some w' -> R w w') ->
  forall c from w w', for_loop c from body w = Some w' -> R w w'.
Proof.
  intros Hrefl Htrans Hbody c. induction c as [|c IH]; intros from w w' E.
  - injection E as <-. apply Hrefl.
  - simpl in E. destruct (body from w) as [w1|] eqn:E1; [|discriminate].
    apply (Htrans w w1 w'); [apply (Hbody from); exact E1|].
    apply (IH (S from)). exact E.
Qed.

Lemma batch_ptr_in_buffer (t : Tensor) (b p : nat) :
  batch_ptr t b = Some p ->
  v t <= p /\ p + batch_size (d t) <= v t + size t.
Proof.
  unfold batch_ptr, size. destruct (bd (d t) =? 1) eqn:E.
  - apply Nat.eqb_eq in E. intros [= <-]. rewrite E. lia.
  - destruct (b <? bd (d t)) eqn:Eb; [|discriminate].
    apply Nat.ltb_lt in Eb. intros [= <-].
    assert (Hb : S b <= bd (d t)) by lia.
    pose proof (Nat.mul_le_mono_l _ _ (batch_size (d t)) Hb). lia.
Qed.

Lemma cublasSgemm_frame (ta tb : bool) (M N K : nat) (alpha beta : T)
    (A lda B ldb C : nat) w (a : nat) :
  a < C \/ C + M * N <= a ->
  heap (cublasSgemm ta tb M N K alpha A lda B ldb beta C M w) a = heap w a.
Proof.
  intros Ha. simpl. rewrite locate_outside by assumption. reflexivity.
Qed.

Lemma noalias_add_product_frame (dst : Map) (lhs rhs : MatExpr) w w'
    (a : nat) :
  noalias_add_product dst lhs rhs w = Some w' ->
  a < data dst \/ data dst + mrows dst * mcols dst <= a ->
  heap w' a = heap w a.
Proof.
  unfold noalias_add_product.
  destruct ((expr_cols lhs =? expr_rows rhs) && (mrows dst =? expr_rows lhs)
            && (mcols dst =? expr_cols rhs)); [|discriminate].
  intros [= <-] Ha. simpl. rewrite locate_outside by assumption.
  reflexivity.
Qed.

Lemma gpu_body_frame (ta tb : bool) (K : nat) (beta : T) (l r y : Tensor)
    (b : nat) w w' :
  gpu_body ta tb K beta l r y b w = Some w' -> unchanged_outside y w w'.
Proof.
  unfold gpu_body.
  destruct (batch_ptr l b) as [lp|]; [|discriminate].
  destruct (batch_ptr r b) as [rp|]; [|discriminate].
  destruct (batch_ptr y b) as [yp|] eqn:Ey; [|discriminate].
  intros [= <-] a Ha. apply cublasSgemm_frame.
  apply batch_ptr_in_buffer in Ey. unfold batch_size in Ey. lia.
Qed.

Lemma cpu_body_frame (ta tb : bool) (l r y : Tensor) (b : nat) w w' :
  cpu_body ta tb l r y b w = Some w' -> unchanged_outside y w w'.
Proof.
  unfold cpu_body, batch_matrix.
  destruct (batch_ptr y b) as [yp|] eqn:Ey; [|discriminate].
  destruct (batch_ptr l b) as [lp|]; [|discriminate].
  destruct (batch_ptr r b) as [rp|]; [|discriminate].
  intros E a Ha. apply (noalias_add_product_frame _ _ _ _ _ a E). simpl.
  apply batch_ptr_in_buffer in Ey. unfold batch_size in Ey. lia.
Qed.

Lemma tbvec_scale_frame (alpha : T) (y : Tensor) w :
  unchanged_outside y w (tbvec_scale alpha y w).
Proof. intros a Ha. apply heap_tbvec_out. exact Ha. Qed.

Lemma run_frame (be : Backend) (ep : EntryPoint) (l r y : Tensor) w w' :
  run be ep l r y w = Some w' -> unchanged_outside y w w'.
Proof.
  assert (Hloop : forall body n w0 w1,
            (forall b w2 w3, body b w2 = Some w3 ->
               unchanged_outside y w2 w3) ->
            for_loop n 0 body w0 = Some w1 -> unchanged_outside y w0 w1).
  { intros body n w0 w1 Hb E.
    apply (for_loop_invariant (unchanged_outside y) body
             (unchanged_refl y) (unchanged_trans y) Hb n 0 w0 w1 E). }
  assert (Hwide : forall a, a < v y \/ v y + size y <= a ->
            a < v y \/
            v y + rows (d y) * (cols (d y) * batch_elems (d y)) <= a).
  { intros a Ha. unfold size, batch_size, batch_elems in *.
    rewrite Nat.mul_assoc. exact Ha. }
  destruct ep as [alpha| |]; destruct be; simpl run.
  - unfold MatrixMultiply_CPU. cbv zeta.
    destruct ((bd (d l) =? 1) && (bd (d r) =? bd (d y))).
    + intros E.
      apply (unchanged_trans y w (tbvec_scale alpha y w) w');
        [apply tbvec_scale_frame|].
      intros a Ha. apply (noalias_add_product_frame _ _ _ _ _ a E).
      simpl. apply Hwide. exact Ha.
    + intros E.
      apply (unchanged_trans y w (tbvec_scale alpha y w) w');
        [apply tbvec_scale_frame|].
      apply (Hloop _ _ _ _ (cpu_body_frame false false l r y) E).
  - unfold MatrixMultiply_GPU.
    destruct ((bd (d l) =? 1) && (bd (d r) =? bd (d y))).
    + intros [= <-] a Ha. apply cublasSgemm_frame. apply Hwide. exact Ha.
    + intros E.
      apply (Hloop _ _ _ _
               (gpu_body_frame false false (cols (d l)) alpha l r y) E).
  - unfold MatrixTranspMultiplyAcc_CPU. cbv zeta.
    destruct ((bd (d l) =? 1) && (bd (d y) =? bd (d r))).
    + intros E a Ha. apply (noalias_add_product_frame _ _ _ _ _ a E).
      simpl. apply Hwide. exact Ha.
    + intros E.
      apply (Hloop _ _ _ _ (cpu_body_frame true false l r y) E).
  - unfold MatrixTranspMultiplyAcc_GPU. cbv zeta.
    destruct ((bd (d l) =? 1) && (bd (d y) =? bd (d r))).
    + intros [= <-] a Ha. apply cublasSgemm_frame. apply Hwide. exact Ha.
    + intros E.
      apply (Hloop _ _ _ _
               (gpu_body_frame true false (rows (d l)) one l r y) E).
  - unfold MatrixMultiplyTranspAcc_CPU. cbv zeta.
    destruct ((bd (d y) =? 1) && (bd (d l) =? bd (d r))) eqn:Ec.
    + apply andb_prop in Ec. destruct Ec as [Ey _].
      apply Nat.eqb_eq in Ey.
      intros E a Ha. apply (noalias_add_product_frame _ _ _ _ _ a E).
      simpl. unfold size, batch_size in Ha. rewrite Ey in Ha. lia.
    + intros E.
      apply (Hloop _ _ _ _ (cpu_body_frame false true l r y) E).
  - unfold MatrixMultiplyTranspAcc_GPU. cbv zeta.
    destruct ((bd (d y) =? 1) && (bd (d l) =? bd (d r))) eqn:Ec.
    + apply andb_prop in Ec. destruct Ec as [Ey _].
      apply Nat.eqb_eq in Ey.
      intros [= <-] a Ha. apply cublasSgemm_frame.
      unfold size, batch_size in Ha. rewrite Ey in Ha. lia.
    + intros E.
      apply (Hloop _ _ _ _
               (gpu_body_frame false true (cols (d l)) one l r y) E).
Qed.

(** C7.  A call of any of the three entry points, on either backend, that
    returns has changed no scalar outside the buffer of Y: in particular
    the buffers of L and R, when stored apart from Y, hold what they held
    before.  The call takes and returns the memory; the tensor descriptors
    are values it cannot change. *)
Theorem only_output_written (be : Backend) (ep : EntryPoint) (l r y : Tensor)
    w w' :
  run be ep l r y w = Some w' ->
  (forall a, ~ in_buffer y a -> heap w' a = heap w a) /\
  (separate y l -> forall a, in_buffer l a -> heap w' a = heap w a) /\
  (separate y r -> forall a, in_buffer r a -> heap w' a = heap w a).
Proof.
  intros E. pose proof (run_frame be ep l r y w w' E) as F.
  split; [|split].
  - intros a Ha. apply F. unfold in_buffer in Ha. lia.
  - intros Syl a Ha. apply F. apply (separate_outside y l a Syl Ha).
  - intros Syr a Ha. apply F. apply (separate_outside y r a Syr Ha).
Qed.

(** *** What a call may read *)




(** ** Further properties of the entry points *)

(** *** MatrixMultiply with either operand broadcast *)

Lemma MatrixMultiply_heap_reaches (be : Backend) (l r y : Tensor)
    (alpha : T) w :
  shapes_ok false false l r y ->
  reaches l (bd (d y)) -> reaches r (bd (d y)) ->
  separate y l -> separate y r ->
  exists w',
    MatrixMultiply be l r y alpha w = Some w' /\
    (forall a, heap w' a = forward_per_batch l r y alpha (heap w) a) /\
    trace w' = trace w ++
      (if (bd (d l) =? 1) && (bd (d r) =? bd (d y))
       then [wide_cols_event be false l r y]
       else map (batch_event be false false l r y) (seq 0 (bd (d y)))).
Proof.
  intros Hs Rl Rr Syl Syr.
  assert (Ry : reaches y (bd (d y))) by (unfold reaches; lia).
  destruct ((bd (d l) =? 1) && (bd (d r) =? bd (d y))) eqn:E.
  - apply andb_prop in E. destruct E as [E1 E2].
    apply Nat.eqb_eq in E1. apply Nat.eqb_eq in E2.
    destruct (MatrixMultiply_heap be l r y alpha w Hs E2 (or_introl E1)
                Syl Syr) as (w' & E' & H' & T').
    exists w'. split; [exact E'|]. split; [exact H'|].
    rewrite T', E1. reflexivity.
  - destruct be; simpl MatrixMultiply.
    + unfold MatrixMultiply_CPU. cbv zeta. rewrite E.
      destruct (for_loop_iter (cpu_body false false l r y)
                  (batch_step false false (cols (d l)) one l r y)
                  (batch_event CPU false false l r y) (bd (d y)))
        with (c := bd (d y)) (w := tbvec_scale alpha y w)
        as (w' & E' & H' & T').
      * intros. apply batch_step_ext. assumption.
      * intros b w0 Hb.
        apply (cpu_body_step false false l r y (bd (d y)) b w0);
          assumption.
      * apply le_n.
      * exists w'. split; [exact E'|]. split.
        -- intros a. rewrite H'. apply scale_then_accumulate; assumption.
        -- rewrite T'. reflexivity.
    + unfold MatrixMultiply_GPU. rewrite E.
      destruct (for_loop_iter (gpu_body false false (cols (d l)) alpha l r y)
                  (batch_step false false (cols (d l)) alpha l r y)
                  (batch_event GPU false false l r y) (bd (d y)))
        with (c := bd (d y)) (w := w)
        as (w' & E' & H' & T').
      * intros. apply batch_step_ext. assumption.
      * intros b w0 Hb.
        apply (gpu_body_step false false (cols (d l)) alpha l r y
                 (bd (d y)) b w0); assumption.
      * apply le_n.
      * exists w'. split; [exact E'|]. split; [exact H'|].
        rewrite T'. reflexivity.
Qed.




(** *** How many multiply calls a call issues *)

Lemma for_loop_trace (body : nat -> World -> option World) :
  (forall b w w', body b w = Some w' ->
     exists e, trace w' = trace w ++ [e]) ->
  forall c from w w', for_loop c from body w = Some w' ->
  exists evs, trace w' = trace w ++ evs /\ length evs = c.
Proof.
  intros Hbody c. induction c as [|c IH]; intros from w w' E.
  - injection E as <-. exists []. rewrite app_nil_r. split; reflexivity.
  - simpl in E. destruct (body from w) as [w1|] eqn:E1; [|discriminate].
    destruct (Hbody from w w1 E1) as (e & T1).
    destruct (IH (S from) w1 w' E) as (evs & T2 & L2).
    exists (e :: evs). split; [|simpl; rewrite L2; reflexivity].
    rewrite T2, T1, <- app_assoc. reflexivity.
Qed.

Lemma noalias_add_product_trace (dst : Map) (lhs rhs : MatExpr) w w' :
  noalias_add_product dst lhs rhs w = Some w' ->
  exists e, trace w' = trace w ++ [e].
Proof.
  unfold noalias_add_product.
  destruct ((expr_cols lhs =? expr_rows rhs) && (mrows dst =? expr_rows lhs)
            && (mcols dst =? expr_cols rhs)); [|discriminate].
  intros [= <-]. eexists. reflexivity.
Qed.

Lemma gpu_body_trace (ta tb : bool) (K : nat) (beta : T) (l r y : Tensor)
    (b : nat) w w' :
  gpu_body ta tb K beta l r y b w = Some w' ->
  exists e, trace w' = trace w ++ [e].
Proof.
  unfold gpu_body.
  destruct (batch_ptr l b) as [lp|]; [|discriminate].
  destruct (batch_ptr r b) as [rp|]; [|discriminate].
  destruct (batch_ptr y b) as [yp|]; [|discriminate].
  intros [= <-]. eexists. reflexivity.
Qed.

Lemma cpu_body_trace (ta tb : bool) (l r y : Tensor) (b : nat) w w' :
  cpu_body ta tb l r y b w = Some w' ->
  exists e, trace w' = trace w ++ [e].
Proof.
  unfold cpu_body.
  destruct (batch_matrix y b) as [yb|]; [|discriminate].
  destruct (batch_matrix l b) as [lb|]; [|discriminate].
  destruct (batch_matrix r b) as [rb|]; [|discriminate].
  apply noalias_add_product_trace.
Qed.

(** X4.  A call of any entry point that returns, on either backend and
    whatever the shapes and batch counts, has appended to the calls issued
    so far exactly one multiply call when its dispatch condition holds, and
    otherwise exactly as many as its loop bound: Y.batch_count for
    MatrixMultiply, max(L.batch_count, R.batch_count) for the accumulating
    entry points. *)
Theorem calls_issued_by_a_call (be : Backend) (ep : EntryPoint)
    (l r y : Tensor) w w' :
  run be ep l r y w = Some w' ->
  exists evs,
    trace w' = trace w ++ evs /\
    length evs = if takes_wide_path ep l r y then 1 else loop_count ep l r y.
Proof.
  assert (One : forall e : Event, length [e] = 1) by reflexivity.
  destruct ep as [alpha| |]; destruct be; simpl run;
    unfold takes_wide_path, loop_count.
  - unfold MatrixMultiply_CPU. cbv zeta.
    destruct ((bd (d l) =? 1) && (bd (d r) =? bd (d y))); intros E.
    + destruct (noalias_add_product_trace _ _ _ _ _ E) as (e & Te).
      exists [e]. split; [exact Te | apply One].
    + apply (for_loop_trace (cpu_body false false l r y)
               (cpu_body_trace false false l r y)) in E.
      exact E.
  - unfold MatrixMultiply_GPU.
    destruct ((bd (d l) =? 1) && (bd (d r) =? bd (d y))); intros E.
    + injection E as <-. eexists. split; [reflexivity | apply One].
    + apply (for_loop_trace (gpu_body false false (cols (d l)) alpha l r y)
               (gpu_body_trace false false (cols (d l)) alpha l r y)) in E.
      exact E.
  - unfold MatrixTranspMultiplyAcc_CPU. cbv zeta.
    destruct ((bd (d l) =? 1) && (bd (d y) =? bd (d r))); intros E.
    + destruct (noalias_add_product_trace _ _ _ _ _ E) as (e & Te).
      exists [e]. split; [exact Te | apply One].
    + apply (for_loop_trace (cpu_body true false l r y)
               (cpu_body_trace true false l r y)) in E.
      exact E.
  - unfold MatrixTranspMultiplyAcc_GPU. cbv zeta.
    destruct ((bd (d l) =? 1) && (bd (d y) =? bd (d r))); intros E.
    + injection E as <-. eexists. split; [reflexivity | apply One].
    + apply (for_loop_trace (gpu_body true false (rows (d l)) one l r y)
               (gpu_body_trace true false (rows (d l)) one l r y)) in E.
      exact E.
  - unfold MatrixMultiplyTranspAcc_CPU. cbv zeta.
    destruct ((bd (d y) =? 1) && (bd (d l) =? bd (d r))); intros E.
    + destruct (noalias_add_product_trace _ _ _ _ _ E) as (e & Te).
      exists [e]. split; [exact Te | apply One].
    + apply (for_loop_trace (cpu_body false true l r y)
               (cpu_body_trace false true l r y)) in E.
      exact E.
  - unfold MatrixMultiplyTranspAcc_GPU. cbv zeta.
    destruct ((bd (d y) =? 1) && (bd (d l) =? bd (d r))); intros E.
    + injection E as <-. eexists. split; [reflexivity | apply One].
    + apply (for_loop_trace (gpu_body false true (cols (d l)) one l r y)
               (gpu_body_trace false true (cols (d l)) one l r y)) in E.
      exact E.
Qed.

(** *** Two loops in step *)

Lemma loops_lockstep (f g : nat -> World -> option World) :
  (forall b w1 w2, (forall a, heap w1 a = heap w2 a) ->
     same_outcome (f b w1) (g b w2)) ->
  forall c from w1 w2, (forall a, heap w1 a = heap w2 a) ->
  same_outcome (for_loop c from f w1) (for_loop c from g w2).
Proof.
  intros Hstep c. induction c as [|c IH]; intros from w1 w2 Hw.
  - exact Hw.
  - simpl. pose proof (Hstep from w1 w2 Hw) as Hs.
    destruct (f from w1) as [w1'|]; destruct (g from w2) as [w2'|];
      simpl in Hs; try contradiction; [|exact I].
    apply IH. exact Hs.
Qed.

(** *** Two accumulations into one output *)










(** A valid call that adds into Y is the loop of its scaled accumulates
    with scalar 1. *)
Lemma run_adds_as_iter (be : Backend) (ep : EntryPoint) (l r y : Tensor) w :
  valid_call ep l r y -> adds_into ep -> separate y l -> separate y r ->
  acc_ready (transp_l ep) (transp_r ep) l r y (loop_count ep l r y) /\
  exists w',
    run be ep l r y w = Some w' /\
    forall a, heap w' a =
      iter_upd (loop_count ep l r y)
        (batch_step (transp_l ep) (transp_r ep) (inner (transp_l ep) l)
           one l r y) (heap w) a.
Proof.
  intros Hv Ha Syl Syr.
  destruct ep as [alpha| |]; simpl in Hv, Ha; simpl run;
    unfold loop_count, transp_l, transp_r.
  - destruct Hv as (S1 & S2 & S3 & Hr & Hl). subst alpha.
    assert (Hs : shapes_ok false false l r y) by (repeat split; assumption).
    split.
    + repeat split; try assumption; unfold reaches; lia.
    + destruct (MatrixMultiply_heap be l r y one w Hs Hr Hl Syl Syr)
        as (w' & E' & H' & _).
      exists w'. split; [exact E'|exact H'].
  - destruct Hv as (S1 & S2 & S3 & Hl & Hr & Hy).
    assert (Hs : shapes_ok true false l r y) by (repeat split; assumption).
    split.
    + repeat split; try assumption; unfold reaches; lia.
    + destruct (MatrixTranspMultiplyAcc_heap be l r y w Hs)
        as (w' & E' & H' & _); try assumption; try (unfold reaches; lia).
      exists w'. split; [exact E'|exact H'].
  - destruct Hv as (S1 & S2 & S3 & Hl & Hr & Hy).
    assert (Hs : shapes_ok false true l r y) by (repeat split; assumption).
    split.
    + repeat split; try assumption; unfold reaches; lia.
    + destruct (MatrixMultiplyTranspAcc_heap be l r y w Hs)
        as (w' & E' & H' & _); try assumption; try (unfold reaches; lia).
      exists w'. split; [exact E'|exact H'].
Qed.


(** *** An empty contraction dimension *)

Lemma dotp_empty (ta tb : bool) (A lda B ldb : nat) h (i j : nat) :
  dotp ta tb 0 A lda B ldb h i j = zero.
Proof. reflexivity. Qed.

Lemma iter_empty (ta tb : bool) (l r y : Tensor) h :
  forall c a, iter_upd c (batch_step ta tb 0 one l r y) h a = h a.
Proof.
  intros c. induction c as [|c IH]; intros a; [reflexivity|].
  simpl. unfold batch_step at 1, gemm_upd.
  destruct (locate (batch_base y c) (rows (d y)) (rows (d y)) (cols (d y)) a)
    as [[i j]|]; [|apply IH].
  rewrite dotp_empty, sc_mul_1_l, sc_add_0_r. apply IH.
Qed.

(** *** The scalar of MatrixMultiply *)



(** ** The accelerator calls under their check *)

Context `{ZeroTest T}.

Hypothesis is_zero_sound : forall x : T, is_zero x = true -> x = zero.

Lemma cublasSgemm_checked_heap (ta tb : bool) (M N K : nat) (beta : T)
    (A lda B ldb C : nat) w :
  sgemm_args_ok ta tb M N K lda ldb M = true ->
  exists w',
    cublasSgemm_checked ta tb M N K one A lda B ldb beta C M w = Some w' /\
    (forall a, heap w' a =
       gemm_upd ta tb M N K beta A lda B ldb C (heap w) a) /\
    trace w' = trace w ++ [Sgemm ta tb M N K A lda B ldb C M].
Proof.
  intros Hok. unfold cublasSgemm_checked. rewrite Hok.
  eexists. split; [reflexivity|]. split; [|reflexivity].
  intros a. cbn [heap]. unfold gemm_upd, dotp.
  destruct (locate C M M N a) as [[i j]|]; [|reflexivity].
  destruct (is_zero beta) eqn:Ez.
  - apply is_zero_sound in Ez. subst beta.
    rewrite sc_mul_1_l, sc_mul_0_l, sc_add_0_l. reflexivity.
  - rewrite sc_mul_1_l. apply sc_add_comm.
Qed.

Lemma cublasSgemm_checked_rejects (ta tb : bool) (m n k : nat)
    (alpha beta : T) (A lda B ldb C ldc : nat) w :
  sgemm_args_ok ta tb m n k lda ldb ldc = false ->
  cublasSgemm_checked ta tb m n k alpha A lda B ldb beta C ldc w = None.
Proof. intros E. unfold cublasSgemm_checked. rewrite E. reflexivity. Qed.

Lemma sgemm_args_ok_rows (ta tb : bool) (l r y : Tensor) (N K : nat) :
  shapes_ok ta tb l r y ->
  1 <= rows (d l) -> 1 <= rows (d r) -> 1 <= rows (d y) ->
  (ta = true \/ tb = false -> K = inner ta l) ->
  (tb = true -> N = cols (d y)) ->
  sgemm_args_ok ta tb (rows (d y)) N K (rows (d l)) (rows (d r)) (rows (d y))
    = true.
Proof.
  intros (S1 & S2 & S3) Pl Pr Py HK HN. unfold sgemm_args_ok, inner in *.
  apply andb_true_intro. split; [apply andb_true_intro; split|];
    apply Nat.leb_le.
  - destruct ta.
    + rewrite HK by (left; reflexivity). lia.
    + lia.
  - destruct tb.
    + rewrite HN by reflexivity. lia.
    + rewrite HK by (right; reflexivity). destruct ta; lia.
  - lia.
Qed.

Lemma gpu_body_checked_step (ta tb : bool) (beta : T) (l r y : Tensor)
    (n b : nat) w :
  shapes_ok ta tb l r y ->
  1 <= rows (d l) -> 1 <= rows (d r) -> 1 <= rows (d y) ->
  reaches l n -> reaches r n -> reaches y n -> b < n ->
  exists w',
    gpu_body_checked ta tb (inner ta l) beta l r y b w = Some w' /\
    (forall a, heap w' a =
       batch_step ta tb (inner ta l) beta l r y b (heap w) a) /\
    trace w' = trace w ++ [batch_event GPU ta tb l r y b].
Proof.
  intros Hs Pl Pr Py Hl Hr Hy Hb. unfold gpu_body_checked.
  rewrite (batch_ptr_base l n b Hl Hb), (batch_ptr_base r n b Hr Hb),
    (batch_ptr_base y n b Hy Hb).
  apply (cublasSgemm_checked_heap ta tb (rows (d y)) (cols (d y))
           (inner ta l) beta (batch_base l b) (rows (d l))
           (batch_base r b) (rows (d r)) (batch_base y b) w).
  apply sgemm_args_ok_rows; auto.
Qed.

Lemma loop_heap_checked (ta tb : bool) (beta : T) (l r y : Tensor) (n : nat)
    w :
  shapes_ok ta tb l r y ->
  1 <= rows (d l) -> 1 <= rows (d r) -> 1 <= rows (d y) ->
  reaches l n -> reaches r n -> reaches y n ->
  exists w',
    for_loop n 0 (gpu_body_checked ta tb (inner ta l) beta l r y) w
      = Some w' /\
    forall a, heap w' a =
      iter_upd n (batch_step ta tb (inner ta l) beta l r y) (heap w) a.
Proof.
  intros Hs Pl Pr Py Hl Hr Hy.
  destruct (for_loop_iter (gpu_body_checked ta tb (inner ta l) beta l r y)
              (batch_step ta tb (inner ta l) beta l r y)
              (batch_event GPU ta tb l r y) n)
    with (c := n) (w := w) as (w' & E' & H' & _).
  - intros. apply batch_step_ext. assumption.
  - intros b w0 Hb.
    apply (gpu_body_checked_step ta tb beta l r y n b w0); assumption.
  - apply le_n.
  - exists w'. split; assumption.
Qed.

Lemma MatrixMultiply_GPU_checked_heap (l r y : Tensor) (alpha : T) w :
  shapes_ok false false l r y ->
  1 <= rows (d l) -> 1 <= rows (d r) -> 1 <= rows (d y) ->
  reaches l (bd (d y)) -> reaches r (bd (d y)) ->
  separate y l -> separate y r ->
  exists w',
    MatrixMultiply_GPU_checked l r y alpha w = Some w' /\
    forall a, heap w' a = forward_per_batch l r y alpha (heap w) a.
Proof.
  intros Hs Pl Pr Py Rl Rr Syl Syr.
  assert (Ry : reaches y (bd (d y))) by (unfold reaches; lia).
  unfold MatrixMultiply_GPU_checked.
  destruct ((bd (d l) =? 1) && (bd (d r) =? bd (d y))) eqn:E.
  - apply andb_prop in E. destruct E as [E1 E2].
    apply Nat.eqb_eq in E1. apply Nat.eqb_eq in E2.
    destruct (cublasSgemm_checked_heap false false (rows (d y))
                (cols (d y) * batch_elems (d y)) (cols (d l)) alpha
                (v l) (rows (d l)) (v r) (rows (d r)) (v y) w)
      as (w' & E' & H' & _).
    + apply sgemm_args_ok_rows; auto. discriminate.
    + exists w'. split; [exact E'|]. intros a. rewrite H'.
      exact (wide_cols_per_batch false alpha l r y (heap w)
               Hs E1 E2 Syl Syr a).
  - apply (loop_heap_checked false false alpha l r y (bd (d y)) w);
      assumption.
Qed.

Lemma MatrixTranspMultiplyAcc_GPU_checked_heap (l r y : Tensor) w :
  shapes_ok true false l r y ->
  1 <= rows (d l) -> 1 <= rows (d r) -> 1 <= rows (d y) ->
  reaches l (Nat.max (bd (d l)) (bd (d r))) ->
  reaches r (Nat.max (bd (d l)) (bd (d r))) ->
  reaches y (Nat.max (bd (d l)) (bd (d r))) ->
  separate y l -> separate y r ->
  exists w',
    MatrixTranspMultiplyAcc_GPU_checked l r y w = Some w' /\
    forall a, heap w' a = transp_per_batch true false l r y (heap w) a.
Proof.
  intros Hs Pl Pr Py Rl Rr Ry Syl Syr.
  unfold MatrixTranspMultiplyAcc_GPU_checked, transp_per_batch. cbv zeta.
  destruct ((bd (d l) =? 1) && (bd (d y) =? bd (d r))) eqn:E.
  - apply andb_prop in E. destruct E as [E1 E2].
    apply Nat.eqb_eq in E1. apply Nat.eqb_eq in E2.
    assert (Hn : Nat.max (bd (d l)) (bd (d r)) = bd (d y))
      by (unfold reaches in Ry; lia).
    rewrite Hn.
    destruct (cublasSgemm_checked_heap true false (rows (d y))
                (cols (d y) * batch_elems (d y)) (rows (d l)) one
                (v l) (rows (d l)) (v r) (rows (d r)) (v y) w)
      as (w' & E' & H' & _).
    + apply sgemm_args_ok_rows; auto. discriminate.
    + exists w'. split; [exact E'|]. intros a. rewrite H'.
      exact (wide_cols_per_batch true one l r y (heap w)
               Hs E1 (eq_sym E2) Syl Syr a).
  - apply (loop_heap_checked true false one l r y
             (Nat.max (bd (d l)) (bd (d r))) w); assumption.
Qed.

Lemma MatrixMultiplyTranspAcc_GPU_checked_heap (l r y : Tensor) w :
  shapes_ok false true l r y ->
  1 <= rows (d l) -> 1 <= rows (d r) -> 1 <= rows (d y) ->
  reaches l (Nat.max (bd (d l)) (bd (d r))) ->
  reaches r (Nat.max (bd (d l)) (bd (d r))) ->
  reaches y (Nat.max (bd (d l)) (bd (d r))) ->
  separate y l -> separate y r ->
  exists w',
    MatrixMultiplyTranspAcc_GPU_checked l r y w = Some w' /\
    forall a, heap w' a = transp_per_batch false true l r y (heap w) a.
Proof.
  intros Hs Pl Pr Py Rl Rr Ry Syl Syr.
  unfold MatrixMultiplyTranspAcc_GPU_checked, transp_per_batch. cbv zeta.
  destruct ((bd (d y) =? 1) && (bd (d l) =? bd (d r))) eqn:E.
  - apply andb_prop in E. destruct E as [E1 E2].
    apply Nat.eqb_eq in E1. apply Nat.eqb_eq in E2.
    assert (Hn : Nat.max (bd (d l)) (bd (d r)) = bd (d l)) by lia.
    rewrite Hn.
    destruct (cublasSgemm_checked_heap false true (rows (d y))
                (cols (d y)) (cols (d l) * batch_elems (d l)) one
                (v l) (rows (d l)) (v r) (rows (d r)) (v y) w)
      as (w' & E' & H' & _).
    + apply sgemm_args_ok_rows; auto. intros [C|C]; discriminate.
    + exists w'. split; [exact E'|]. intros a. rewrite H'.
      exact (wide_inner_per_batch l r y (heap w) Hs E1 E2 Syl Syr a).
  - apply (loop_heap_checked false true one l r y
             (Nat.max (bd (d l)) (bd (d r))) w); assumption.
Qed.

(** On fitting shapes, in-range batch counts and operands stored apart from
    the output, an entry point returns the memory of its per-batch loop: on
    the CPU path always, on the accelerator path when no leading dimension
    is 0. *)
Lemma run_checked_reference (be : Backend) (ep : EntryPoint) (l r y : Tensor)
    w :
  call_shapes ep l r y -> batches_in_range ep l r y ->
  (be = GPU ->
   1 <= rows (d l) /\ 1 <= rows (d r) /\ 1 <= rows (d y)) ->
  separate y l -> separate y r ->
  exists w',
    run_checked be ep l r y w = Some w' /\
    forall a, heap w' a = per_batch_reference ep l r y (heap w) a.
Proof.
  intros Hs (Rl & Rr & Ry) Pos Syl Syr.
  destruct be.
  - clear Pos. destruct ep as [alpha| |]; simpl in Hs;
      unfold loop_count in Rl, Rr, Ry; simpl run_checked;
      unfold per_batch_reference.
    + destruct (MatrixMultiply_heap_reaches CPU l r y alpha w Hs Rl Rr
                  Syl Syr) as (w' & E' & H' & _).
      exists w'. split; assumption.
    + destruct (MatrixTranspMultiplyAcc_heap CPU l r y w Hs Rl Rr Ry
                  Syl Syr) as (w' & E' & H' & _).
      exists w'. split; assumption.
    + destruct (MatrixMultiplyTranspAcc_heap CPU l r y w Hs Rl Rr Ry
                  Syl Syr) as (w' & E' & H' & _).
      exists w'. split; assumption.
  - destruct (Pos eq_refl) as (Pl & Pr & Py).
    destruct ep as [alpha| |]; simpl in Hs;
      unfold loop_count in Rl, Rr, Ry; simpl run_checked;
      unfold per_batch_reference.
    + apply MatrixMultiply_GPU_checked_heap; assumption.
    + apply MatrixTranspMultiplyAcc_GPU_checked_heap; assumption.
    + apply MatrixMultiplyTranspAcc_GPU_checked_heap; assumption.
Qed.

Lemma valid_call_in_range (ep : @EntryPoint T) (l r y : Tensor) :
  valid_call ep l r y -> call_shapes ep l r y /\ batches_in_range ep l r y.
Proof.
  destruct ep as [alpha| |];
    unfold batches_in_range, loop_count, reaches, batches_ok; simpl.
  - intros (S1 & S2 & S3 & Hr & Hl). repeat split; try assumption; lia.
  - intros (S1 & S2 & S3 & Hl & Hr & Hy). repeat split; try assumption; lia.
  - intros (S1 & S2 & S3 & Hl & Hr & Hy). repeat split; try assumption; lia.
Qed.

Lemma backends_agree_when_in_range (ep : EntryPoint) (l r y : Tensor) w :
  call_shapes ep l r y -> batches_in_range ep l r y ->
  1 <= rows (d l) -> 1 <= rows (d r) -> 1 <= rows (d y) ->
  separate y l -> separate y r ->
  exists wc wg,
    run_checked CPU ep l r y w = Some wc /\
    run_checked GPU ep l r y w = Some wg /\
    forall a, heap wc a = heap wg a.
Proof.
  intros Hs Hb Pl Pr Py Syl Syr.
  destruct (run_checked_reference CPU ep l r y w Hs Hb) as (wc & Ec & Hc);
    try assumption; [discriminate|].
  destruct (run_checked_reference GPU ep l r y w Hs Hb) as (wg & Eg & Hg);
    try assumption; [intros _; repeat split; assumption|].
  exists wc, wg. split; [exact Ec|]. split; [exact Eg|].
  intros a. rewrite Hc, Hg. reflexivity.
Qed.

(** C5, amended.  On a valid call in which L, R and Y each have at least
    one row, operands stored apart from the output, each entry point
    returns on both backends, the accelerator calls passing the check of
    the library, and the CPU path and the accelerator path leave the same
    memory, over scalars with 0 * x = 0 for every x (so no NaN or infinity
    in Y when alpha = 0) and an associative, commutative addition. *)
Theorem backends_agree_with_rows (ep : EntryPoint) (l r y : Tensor) w :
  valid_call ep l r y ->
  1 <= rows (d l) -> 1 <= rows (d r) -> 1 <= rows (d y) ->
  separate y l -> separate y r ->
  exists wc wg,
    run_checked CPU ep l r y w = Some wc /\
    run_checked GPU ep l r y w = Some wg /\
    forall a, heap wc a = heap wg a.
Proof.
  intros Hv Pl Pr Py Syl Syr.
  destruct (valid_call_in_range ep l r y Hv) as [Hs Hb].
  apply backends_agree_when_in_range; assumption.
Qed.

(** X5.  The two backends agree beyond the batch counts of the
    specification.  On fitting shapes with at least one row in L, R and Y,
    whenever every batch index of the loop is in range (each of L, R, Y of
    batch count 1 or at least the loop bound) and the operands are stored
    apart from the output, each entry point returns on both backends and
    the two paths leave the same memory, over scalars with 0 * x = 0 for
    every x and an associative, commutative addition. *)
Theorem backends_agree_in_range (ep : EntryPoint) (l r y : Tensor) w :
  call_shapes ep l r y -> batches_in_range ep l r y ->
  1 <= rows (d l) -> 1 <= rows (d r) -> 1 <= rows (d y) ->
  separate y l -> separate y r ->
  exists wc wg,
    run_checked CPU ep l r y w = Some wc /\
    run_checked GPU ep l r y w = Some wg /\
    forall a, heap wc a = heap wg a.
Proof. apply backends_agree_when_in_range. Qed.

(** *** An empty contraction dimension on the two backends *)

Lemma sgemm_args_ok_zero_ld (ta tb : bool) (m n k lda ldb ldc : nat) :
  lda = 0 \/ ldb = 0 \/ ldc = 0 ->
  sgemm_args_ok ta tb m n k lda ldb ldc = false.
Proof.
  intros Hz. destruct (sgemm_args_ok ta tb m n k lda ldb ldc) eqn:E;
    [|reflexivity].
  unfold sgemm_args_ok in E.
  apply andb_prop in E. destruct E as [E E3].
  apply andb_prop in E. destruct E as [E1 E2].
  apply Nat.leb_le in E1. apply Nat.leb_le in E2. apply Nat.leb_le in E3.
  lia.
Qed.

Lemma gpu_loop_rejected (ta tb : bool) (K : nat) (beta : T) (l r y : Tensor)
    (n : nat) w :
  reaches l n -> reaches r n -> reaches y n -> 1 <= n ->
  rows (d l) = 0 \/ rows (d r) = 0 \/ rows (d y) = 0 ->
  for_loop n 0 (gpu_body_checked ta tb K beta l r y) w = None.
Proof.
  intros Rl Rr Ry Hn Hz. destruct n as [|n]; [lia|].
  simpl. unfold gpu_body_checked at 1.
  rewrite (batch_ptr_base l (S n) 0 Rl), (batch_ptr_base r (S n) 0 Rr),
    (batch_ptr_base y (S n) 0 Ry) by lia.
  rewrite cublasSgemm_checked_rejects; [reflexivity|].
  apply sgemm_args_ok_zero_ld. exact Hz.
Qed.

(** X7.  An empty contraction dimension (0 columns of L for MatrixMultiply
    and MatrixMultiplyTranspAcc, 0 rows of L for MatrixTranspMultiplyAcc)
    on a valid call.  On the CPU path the operands contribute nothing:
    MatrixMultiply leaves the memory that scaling Y by alpha leaves, the
    accumulating entry points leave memory as it was.  On the accelerator
    path MatrixMultiplyTranspAcc does the same when L and R have a row,
    while MatrixMultiply and MatrixTranspMultiplyAcc, whose empty dimension
    is the row count of R that they pass as leading dimension, have their
    first library call rejected and no result. *)
Theorem empty_contraction_by_backend (ep : EntryPoint) (l r y : Tensor) w :
  valid_call ep l r y -> inner_dim ep l = 0 ->
  1 <= bd (d l) -> 1 <= bd (d r) -> 1 <= bd (d y) ->
  separate y l -> separate y r ->
  (exists w',
     run_checked CPU ep l r y w = Some w' /\
     forall a, heap w' a =
       match ep with
       | Forward alpha => heap (tbvec_scale alpha y w) a
       | TranspLeft | TranspRight => heap w a
       end) /\
  match ep with
  | Forward _ | TranspLeft => run_checked GPU ep l r y w = None
  | TranspRight =>
      1 <= rows (d l) -> 1 <= rows (d r) ->
      exists w',
        run_checked GPU ep l r y w = Some w' /\
        forall a, heap w' a = heap w a
  end.
Proof.
  intros Hv Hk Bl Br By Syl Syr.
  destruct (valid_call_in_range ep l r y Hv) as [Hs (Rl & Rr & Ry)].
  destruct ep as [alpha| |]; unfold inner_dim in Hk; simpl in Hk;
    unfold loop_count in Rl, Rr, Ry; simpl in Hs; simpl run_checked.
  - (* MatrixMultiply *)
    destruct Hv as (S1 & S2 & S3 & Hr & Hl).
    assert (Hsh : shapes_ok false false l r y) by exact Hs.
    split.
    + destruct (MatrixMultiply_heap CPU l r y alpha w Hsh Hr Hl Syl Syr)
        as (w' & E' & H' & _).
      exists w'. split; [exact E'|].
      intros a. rewrite H'. unfold forward_per_batch. revert a.
      destruct (iter_distinct false false alpha l r y (bd (d y)) (heap w)
                  Hsh eq_refl Rl Rr Syl Syr (bd (d y)) (le_n _))
        as [I1 I2].
      apply (heap_eq_by_elems y).
      * intros b i j Hb Hi Hj. change (cols (d l)) with (inner false l).
        rewrite I1 by assumption.
        rewrite heap_tbvec_in
          by (apply (batch_base_in_buffer y (bd (d y)));
              unfold reaches; auto; lia).
        unfold inner. rewrite Hk, dotp_empty. apply sc_add_0_r.
      * intros a Ha. change (cols (d l)) with (inner false l).
        rewrite I2 by (unfold size in Ha; lia).
        symmetry. apply heap_tbvec_out. exact Ha.
    + assert (Hz : rows (d l) = 0 \/ rows (d r) = 0 \/ rows (d y) = 0)
        by (right; left; lia).
      unfold MatrixMultiply_GPU_checked.
      destruct ((bd (d l) =? 1) && (bd (d r) =? bd (d y))).
      * apply cublasSgemm_checked_rejects.
        apply sgemm_args_ok_zero_ld. exact Hz.
      * apply (gpu_loop_rejected false false (cols (d l)) alpha l r y
                 (bd (d y)) w); assumption.
  - (* MatrixTranspMultiplyAcc *)
    split.
    + destruct (run_adds_as_iter CPU TranspLeft l r y w Hv I Syl Syr)
        as (_ & w' & E' & H').
      exists w'. split; [exact E'|]. intros a. rewrite H'.
      simpl transp_l. unfold inner. rewrite Hk. apply iter_empty.
    + assert (Hz : rows (d l) = 0 \/ rows (d r) = 0 \/ rows (d y) = 0)
        by (left; exact Hk).
      unfold MatrixTranspMultiplyAcc_GPU_checked. cbv zeta.
      destruct ((bd (d l) =? 1) && (bd (d y) =? bd (d r))).
      * apply cublasSgemm_checked_rejects.
        apply sgemm_args_ok_zero_ld. exact Hz.
      * apply (gpu_loop_rejected true false (rows (d l)) one l r y
                 (Nat.max (bd (d l)) (bd (d r))) w); try assumption.
        lia.
  - (* MatrixMultiplyTranspAcc *)
    split.
    + destruct (run_adds_as_iter CPU TranspRight l r y w Hv I Syl Syr)
        as (_ & w' & E' & H').
      exists w'. split; [exact E'|]. intros a. rewrite H'.
      simpl transp_l. unfold inner. rewrite Hk. apply iter_empty.
    + intros Pl Pr.
      assert (Hsh : shapes_ok false true l r y) by exact Hs.
      assert (Py : 1 <= rows (d y))
        by (destruct Hsh as (_ & S2 & _); simpl in S2; lia).
      destruct (MatrixMultiplyTranspAcc_GPU_checked_heap l r y w Hsh
                  Pl Pr Py Rl Rr Ry Syl Syr) as (w' & E' & H').
      exists w'. split; [exact E'|]. intros a. rewrite H'.
      unfold transp_per_batch. rewrite Hk. apply iter_empty.
Qed.

(** C8.  The concrete scenario with its shapes adjusted to the product
    L * R^T: for L of shape 4x3 and R of shape 1x3, both of batch count 2,
    and Y of shape 4x1 and batch count 1, MatrixMultiplyTranspAcc returns
    on either backend (the accelerator call passes the check of the
    library) after one wide call, and every entry i of Y holds its prior
    value plus the sum over both batch elements b of the entry i of
    L[b] * R[b]^T. *)
Theorem MatrixMultiplyTranspAcc_scenario (be : Backend) (l r y : Tensor) w :
  d l = mkDim 4 3 2 -> d r = mkDim 1 3 2 -> d y = mkDim 4 1 1 ->
  exists w',
    run_checked be TranspRight l r y w = Some w' /\
    trace w' = trace w ++ [wide_inner_event be l r y] /\
    forall i, i < 4 ->
      elem (heap w') y 0 i 0 =
      elem (heap w) y 0 i 0 +!
      sum_n 2 (fun b =>
        sum_n 3 (fun p => elem (heap w) l b i p *! elem (heap w) r b 0 p)).
Proof.
  intros Dl Dr Dy.
  assert (Hs : shapes_ok false true l r y)
    by (unfold shapes_ok; rewrite Dl, Dr, Dy; simpl; lia).
  assert (Hy : bd (d y) = 1) by (rewrite Dy; reflexivity).
  assert (Hlr : bd (d l) = bd (d r)) by (rewrite Dl, Dr; reflexivity).
  assert (Hwide : exists w',
            run_checked be TranspRight l r y w = Some w' /\
            (forall a, heap w' a =
               gemm_upd false true (rows (d y)) (cols (d y))
                 (cols (d l) * batch_elems (d l)) one
                 (v l) (rows (d l)) (v r) (rows (d r)) (v y) (heap w) a) /\
            trace w' = trace w ++ [wide_inner_event be l r y]).
  { destruct be; simpl run_checked.
    - exact (MatrixMultiplyTranspAcc_wide CPU l r y w Hs Hy Hlr).
    - unfold MatrixMultiplyTranspAcc_GPU_checked. cbv zeta.
      rewrite Hy, Hlr, !Nat.eqb_refl. cbn [andb].
      destruct (cublasSgemm_checked_heap false true (rows (d y))
                  (cols (d y)) (cols (d l) * batch_elems (d l)) one
                  (v l) (rows (d l)) (v r) (rows (d r)) (v y) w)
        as (w' & E' & H' & T').
      + rewrite Dl, Dr, Dy. reflexivity.
      + exists w'. split; [exact E'|]. split; [exact H'|].
        rewrite T'. reflexivity. }
  destruct Hwide as (w' & E' & H' & T').
  exists w'. split; [exact E'|]. split; [exact T'|].
  intros i Hi. unfold elem at 1 2.
  rewrite (batch_base_bcast y 0 Hy), H'.
  rewrite wide_inner_elem
    by (try assumption; rewrite Dy; simpl; lia).
  assert (Hb : bd (d l) = 2) by (rewrite Dl; reflexivity).
  assert (Hc : cols (d l) = 3) by (rewrite Dl; reflexivity).
  rewrite Hb. unfold dotp. rewrite Hc. reflexivity.
Qed.

(** *** The accelerator path with alpha = 0 *)

Lemma cublasSgemm_checked_zero (ta tb : bool) (M N K : nat) (alpha beta : T)
    (A lda B ldb C ldc : nat) w :
  is_zero beta = true ->
  sgemm_args_ok ta tb M N K lda ldb ldc = true ->
  exists w',
    cublasSgemm_checked ta tb M N K alpha A lda B ldb beta C ldc w
      = Some w' /\
    forall a, heap w' a =
      match locate C ldc M N a with
      | Some (i, j) => alpha *! dotp ta tb K A lda B ldb (heap w) i j
      | None => heap w a
      end.
Proof.
  intros Ez Hok. unfold cublasSgemm_checked. rewrite Hok.
  eexists. split; [reflexivity|]. intros a. cbn [heap].
  destruct (locate C ldc M N a) as [[i j]|]; [|reflexivity].
  rewrite Ez. reflexivity.
Qed.

Lemma zero_loop_agree (beta : T) (l r y : Tensor) w1 w2 :
  is_zero beta = true ->
  shapes_ok false false l r y ->
  1 <= rows (d l) -> 1 <= rows (d r) -> 1 <= rows (d y) ->
  reaches l (bd (d y)) -> reaches r (bd (d y)) ->
  separate y l -> separate y r ->
  (forall a, in_buffer l a -> heap w1 a = heap w2 a) ->
  (forall a, in_buffer r a -> heap w1 a = heap w2 a) ->
  forall c, c <= bd (d y) ->
  exists w1' w2',
    for_loop c 0 (gpu_body_checked false false (cols (d l)) beta l r y) w1
      = Some w1' /\
    for_loop c 0 (gpu_body_checked false false (cols (d l)) beta l r y) w2
      = Some w2' /\
    (forall a, a < v y \/ v y + c * batch_size (d y) <= a ->
       heap w1' a = heap w1 a /\ heap w2' a = heap w2 a) /\
    (forall a, v y <= a < v y + c * batch_size (d y) ->
       heap w1' a = heap w2' a).
Proof.
  intros Ez Hs Pl Pr Py Rl Rr Syl Syr EL ER c.
  induction c as [|c IH]; intros Hc.
  - exists w1, w2. simpl. split; [reflexivity|]. split; [reflexivity|].
    split; [intros; split; reflexivity | intros a Ha; lia].
  - destruct IH as (u1 & u2 & E1 & E2 & Hout & Hin); [lia|].
    assert (Ry : reaches y (bd (d y))) by (right; apply le_n).
    assert (Hbase : batch_base y c = v y + c * batch_size (d y))
      by (apply batch_base_distinct; lia).
    assert (Hsz : c * batch_size (d y) + batch_size (d y) <= size y).
    { unfold size.
      pose proof (Nat.mul_le_mono_l _ _ (batch_size (d y)) Hc). lia. }
    assert (Hok : sgemm_args_ok false false (rows (d y)) (cols (d y))
                    (cols (d l)) (rows (d l)) (rows (d r)) (rows (d y))
                  = true).
    { apply sgemm_args_ok_rows; try assumption.
      - intros _. reflexivity.
      - intros D. discriminate D. }
    destruct (cublasSgemm_checked_zero false false (rows (d y)) (cols (d y))
                (cols (d l)) one beta (batch_base l c) (rows (d l))
                (batch_base r c) (rows (d r)) (batch_base y c) (rows (d y))
                u1 Ez Hok) as (v1 & F1 & G1).
    destruct (cublasSgemm_checked_zero false false (rows (d y)) (cols (d y))
                (cols (d l)) one beta (batch_base l c) (rows (d l))
                (batch_base r c) (rows (d r)) (batch_base y c) (rows (d y))
                u2 Ez Hok) as (v2 & F2 & G2).
    exists v1, v2. rewrite !for_loop_snoc, E1, E2. simpl (0 + c).
    unfold gpu_body_checked.
    rewrite (batch_ptr_base l _ c Rl), (batch_ptr_base r _ c Rr),
      (batch_ptr_base y _ c Ry) by lia.
    split; [exact F1|]. split; [exact F2|].
    assert (Hrd : forall t a, separate y t -> in_buffer t a ->
              (forall a', in_buffer t a' -> heap w1 a' = heap w2 a') ->
              heap u1 a = heap u2 a).
    { intros t a St Ha Et.
      pose proof (separate_outside y t a St Ha) as Ho.
      destruct (Hout a) as [O1 O2]; [lia|].
      rewrite O1, O2. apply Et. exact Ha. }
    split.
    + intros a Ha. rewrite G1, G2.
      destruct (locate (batch_base y c) (rows (d y)) (rows (d y))
                  (cols (d y)) a) as [[i j]|] eqn:Eloc.
      * apply locate_Some in Eloc. destruct Eloc as (Ea & Hi & Hj).
        exfalso. rewrite Hbase in Ea.
        assert (i + j * rows (d y) < batch_size (d y))
          by (unfold batch_size; nia).
        lia.
      * apply Hout. lia.
    + intros a Ha. rewrite G1, G2.
      destruct (locate (batch_base y c) (rows (d y)) (rows (d y))
                  (cols (d y)) a) as [[i j]|] eqn:Eloc.
      * apply locate_Some in Eloc. destruct Eloc as (_ & Hi & Hj).
        f_equal. change (cols (d l)) with (inner false l).
        apply (dotp_batch_ext false false l r y (bd (d y)));
          try assumption.
        -- intros a' Ha'. apply (Hrd l); assumption.
        -- intros a' Ha'. apply (Hrd r); assumption.
      * apply locate_None in Eloc. apply Hin. rewrite Hbase in Eloc.
        fold (batch_size (d y)) in Eloc. lia.
Qed.

(** X3.  With alpha = 0 the accelerator path of MatrixMultiply overwrites
    Y, under no law of arithmetic: from any two states that hold the same
    scalars in the buffers of L and R, whatever the buffer of Y holds (a
    NaN included), a valid call with a row in L and in R returns and leaves
    the same contents in the buffer of Y, since the library does not read
    its output operand when beta is zero. *)
Theorem MatrixMultiply_GPU_zero_overwrites (l r y : Tensor) (alpha : T)
    w1 w2 :
  is_zero alpha = true ->
  valid_call (Forward alpha) l r y ->
  1 <= rows (d l) -> 1 <= rows (d r) ->
  separate y l -> separate y r ->
  (forall a, in_buffer l a -> heap w1 a = heap w2 a) ->
  (forall a, in_buffer r a -> heap w1 a = heap w2 a) ->
  exists w1' w2',
    MatrixMultiply_GPU_checked l r y alpha w1 = Some w1' /\
    MatrixMultiply_GPU_checked l r y alpha w2 = Some w2' /\
    forall a, in_buffer y a -> heap w1' a = heap w2' a.
Proof.
  intros Ez (S1 & S2 & S3 & Hr & Hl) Pl Pr Syl Syr EL ER.
  assert (Hs : shapes_ok false false l r y) by (repeat split; assumption).
  assert (Py : 1 <= rows (d y)) by lia.
  unfold MatrixMultiply_GPU_checked.
  destruct ((bd (d l) =? 1) && (bd (d r) =? bd (d y))) eqn:E0.
  - apply andb_prop in E0. destruct E0 as [B1 _].
    apply Nat.eqb_eq in B1.
    assert (Hok : sgemm_args_ok false false (rows (d y))
                    (cols (d y) * batch_elems (d y)) (cols (d l))
                    (rows (d l)) (rows (d r)) (rows (d y)) = true).
    { apply sgemm_args_ok_rows; try assumption.
      - intros _. reflexivity.
      - intros D. discriminate D. }
    destruct (cublasSgemm_checked_zero false false (rows (d y))
                (cols (d y) * batch_elems (d y)) (cols (d l)) one alpha
                (v l) (rows (d l)) (v r) (rows (d r)) (v y) (rows (d y))
                w1 Ez Hok) as (v1 & F1 & G1).
    destruct (cublasSgemm_checked_zero false false (rows (d y))
                (cols (d y) * batch_elems (d y)) (cols (d l)) one alpha
                (v l) (rows (d l)) (v r) (rows (d r)) (v y) (rows (d y))
                w2 Ez Hok) as (v2 & F2 & G2).
    exists v1, v2. split; [exact F1|]. split; [exact F2|].
    intros a Ha. rewrite G1, G2.
    destruct (locate (v y) (rows (d y)) (rows (d y))
                (cols (d y) * batch_elems (d y)) a) as [[i j]|] eqn:Eloc.
    + apply locate_Some in Eloc. destruct Eloc as (_ & Hi & Hj).
      unfold batch_elems in Hj. f_equal. apply dotp_ext; intros p Hp.
      * apply EL. unfold in_buffer, size, batch_size. rewrite B1. nia.
      * apply ER. unfold in_buffer, size, batch_size. nia.
    + apply locate_None in Eloc. exfalso.
      unfold in_buffer, size, batch_size in Ha.
      unfold batch_elems in Eloc. nia.
  - assert (Rl : reaches l (bd (d y))) by (unfold reaches; lia).
    assert (Rr : reaches r (bd (d y))) by (unfold reaches; lia).
    destruct (zero_loop_agree alpha l r y w1 w2 Ez Hs Pl Pr Py Rl Rr
                Syl Syr EL ER (bd (d y)) (le_n _))
      as (v1 & v2 & F1 & F2 & _ & Hin).
    exists v1, v2. split; [exact F1|]. split; [exact F2|].
    intros a Ha. apply Hin. unfold in_buffer, size in Ha. lia.
Qed.

End Properties.

(** ** The calls of the specification, evaluated on integers *)

(** The forward scenario: with alpha = 0, Y[b] = L * R[b]; the first column
    of Y[0] and the last column of Y[4]. *)
Example forward_scenario_values (be : Backend) :
  option_map (fun w => (map (heap w) (seq 66 2), map (heap w) (seq 104 2)))
    (MatrixMultiply be fwd_l fwd_r fwd_y 0%Z ramp)
  = Some ([46; 67]%Z, [388; 580]%Z).
Proof. destruct be; reflexivity. Qed.

(** The shapes as listed, L 3x4 and R 3x1, fit L^T * R: the left-transpose
    entry point on them. *)
Example left_transpose_scenario_values (be : Backend) :
  option_map (fun w => map (heap w) (seq 30 4))
    (MatrixTranspMultiplyAcc be acc_l acc_r acc_y ramp)
  = Some [1201; 1679; 2157; 2635]%Z.
Proof. destruct be; reflexivity. Qed.






Lemma MatrixMultiply_zero_scalar_witness :
  exists w0 w1,
    MatrixMultiply CPU eqb_l eqb_r eqb_y 0%Z ramp = Some w0 /\
    MatrixMultiply CPU eqb_l eqb_r eqb_y 1%Z (zero_tensor eqb_y ramp)
      = Some w1 /\
    forall a, heap w0 a = heap w1 a.
Proof.
  apply (@MatrixMultiply_zero_scalar Z Z_Scalar
           Z.add_comm Z.mul_1_l Z.mul_0_l
           CPU eqb_l eqb_r eqb_y ramp); concrete.
Defined.

Lemma only_output_written_witness :
  exists w',
    run CPU TranspLeft acc_l acc_r acc_y ramp = Some w' /\
    (forall a, ~ in_buffer acc_y a -> heap w' a = heap ramp a) /\
    (separate acc_y acc_l ->
     forall a, in_buffer acc_l a -> heap w' a = heap ramp a) /\
    (separate acc_y acc_r ->
     forall a, in_buffer acc_r a -> heap w' a = heap ramp a).
Proof.
  eexists. split; [reflexivity|].
  apply (only_output_written CPU TranspLeft acc_l acc_r acc_y ramp _ eq_refl).
Defined.



(** ** The further properties on concrete calls *)



Lemma calls_issued_by_a_call_witness :
  exists w',
    run GPU TranspLeft acc_l acc_r acc_y ramp = Some w' /\
    exists evs, trace w' = trace ramp ++ evs /\ length evs = 2.
Proof.
  eexists. split; [reflexivity|].
  apply (@calls_issued_by_a_call Z Z_Scalar
           GPU TranspLeft acc_l acc_r acc_y ramp _ eq_refl).
Defined.





(** ** The accelerator check and the scaling of Y on concrete calls *)

Lemma Z_is_zero_sound (x : Z) : is_zero x = true -> x = zero.
Proof.
  destruct x; [reflexivity|discriminate|discriminate].
Qed.

(** C5.  Two valid calls on which the two paths part.  First, L of shape
    2x0 and R of shape 0x2 (batch count 2) into a 2x2 output, with
    alpha = 3: the CPU path returns, having scaled Y; on the accelerator
    path R's row count 0 is passed as leading dimension, the library
    rejects the call and the path has no result.  Second, L = (2), R = (3)
    and a NaN in the 1x1 output, with alpha = 0: both paths return, the CPU
    path leaving NaN in Y and the accelerator path 6. *)
Lemma backends_disagree :
  (valid_call (Forward 3%Z) nil_l nil_r nil_y /\
   separate nil_y nil_l /\ separate nil_y nil_r /\
   option_map (fun w => map (heap w) (seq 8 8))
     (run_checked CPU (Forward 3%Z) nil_l nil_r nil_y ramp)
   = Some [24; 27; 30; 33; 36; 39; 42; 45]%Z /\
   run_checked GPU (Forward 3%Z) nil_l nil_r nil_y ramp = None) /\
  (valid_call (Forward (Some 0%Z)) nan_l nan_r nan_y /\
   separate nan_y nan_l /\ separate nan_y nan_r /\
   option_map (fun w => heap w 2)
     (run_checked CPU (Forward (Some 0%Z)) nan_l nan_r nan_y nan_world)
   = Some None /\
   option_map (fun w => heap w 2)
     (run_checked GPU (Forward (Some 0%Z)) nan_l nan_r nan_y nan_world)
   = Some (Some 6%Z)).
Proof.
  split.
  - split; [concrete|]. split; [concrete|]. split; [concrete|].
    split; reflexivity.
  - split; [concrete|]. split; [concrete|]. split; [concrete|].
    split; reflexivity.
Qed.

Lemma backends_agree_with_rows_witness :
  exists wc wg,
    run_checked CPU (Forward 2%Z) eqb_l eqb_r eqb_y ramp = Some wc /\
    run_checked GPU (Forward 2%Z) eqb_l eqb_r eqb_y ramp = Some wg /\
    forall a, heap wc a = heap wg a.
Proof.
  apply (@backends_agree_with_rows Z Z_Scalar
           Z.add_comm Z.add_assoc Z.add_0_l Z.mul_1_l Z.mul_0_l
           Z_ZeroTest Z_is_zero_sound
           (Forward 2%Z) eqb_l eqb_r eqb_y ramp); concrete.
Defined.

(** C6.  On the CPU path alpha = 0 does not overwrite Y.  With L = (2),
    R = (3) and a NaN stored in the 1x1 output, MatrixMultiply with
    alpha = 0 leaves NaN in Y, since it first computes 0 * NaN; setting Y
    to zero and calling with alpha = 1 leaves 6, and so does the
    accelerator path called with alpha = 0, whose library call does not
    read Y. *)
Theorem MatrixMultiply_CPU_zero_keeps_nan :
  valid_call (Forward (Some 0%Z)) nan_l nan_r nan_y /\
  separate nan_y nan_l /\ separate nan_y nan_r /\
  option_map (fun w => heap w 2)
    (MatrixMultiply_CPU nan_l nan_r nan_y zero nan_world) = Some None /\
  option_map (fun w => heap w 2)
    (MatrixMultiply_CPU nan_l nan_r nan_y one (zero_tensor nan_y nan_world))
  = Some (Some 6%Z) /\
  option_map (fun w => heap w 2)
    (MatrixMultiply_GPU_checked nan_l nan_r nan_y zero nan_world)
  = Some (Some 6%Z).
Proof.
  split; [concrete|]. split; [concrete|]. split; [concrete|].
  repeat split; reflexivity.
Qed.

Lemma MatrixMultiplyTranspAcc_scenario_witness :
  exists w',
    run_checked GPU TranspRight adj_l adj_r acc_y ramp = Some w' /\
    trace w' = trace ramp ++ [wide_inner_event GPU adj_l adj_r acc_y] /\
    forall i, i < 4 ->
      elem (heap w') acc_y 0 i 0 =
      elem (heap ramp) acc_y 0 i 0 +!
      sum_n 2 (fun b =>
        sum_n 3 (fun p =>
          elem (heap ramp) adj_l b i p *! elem (heap ramp) adj_r b 0 p)).
Proof.
  apply (@MatrixMultiplyTranspAcc_scenario Z Z_Scalar
           Z.add_comm Z.add_assoc Z.add_0_l Z.mul_1_l Z.mul_0_l
           Z_ZeroTest Z_is_zero_sound
           GPU adj_l adj_r acc_y ramp); reflexivity.
Defined.

(** The adjusted scenario evaluated: Y = 30..33 before the call. *)
Example right_transpose_scenario_values (be : Backend) :
  option_map (fun w => map (heap w) (seq 30 4))
    (run_checked be TranspRight adj_l adj_r acc_y ramp)
  = Some [1690; 1850; 2010; 2170]%Z.
Proof. destruct be; reflexivity. Qed.

Lemma backends_agree_in_range_witness :
  exists wc wg,
    run_checked CPU TranspRight pb_l pb_r pb_y ramp = Some wc /\
    run_checked GPU TranspRight pb_l pb_r pb_y ramp = Some wg /\
    forall a, heap wc a = heap wg a.
Proof.
  apply (@backends_agree_in_range Z Z_Scalar
           Z.add_comm Z.add_assoc Z.add_0_l Z.mul_1_l Z.mul_0_l
           Z_ZeroTest Z_is_zero_sound
           TranspRight pb_l pb_r pb_y ramp); concrete.
Defined.

Lemma empty_contraction_by_backend_witness :
  (exists w',
     run_checked CPU (Forward 3%Z) nil_l nil_r nil_y ramp = Some w' /\
     forall a, heap w' a = heap (tbvec_scale 3%Z nil_y ramp) a) /\
  run_checked GPU (Forward 3%Z) nil_l nil_r nil_y ramp = None.
Proof.
  apply (@empty_contraction_by_backend Z Z_Scalar
           Z.add_comm Z.add_assoc Z.add_0_l Z.mul_1_l Z.mul_0_l
           Z_ZeroTest Z_is_zero_sound
           (Forward 3%Z) nil_l nil_r nil_y ramp); concrete.
Defined.

(** MatrixMultiplyTranspAcc with no column of L and R: both paths return
    and leave Y as it was. *)
Example empty_contraction_right_transpose (be : Backend) :
  option_map (fun w => map (heap w) (seq 8 8))
    (run_checked be TranspRight noc_l noc_r nil_y ramp)
  = Some (map (heap ramp) (seq 8 8)).
Proof. destruct be; reflexivity. Qed.


Lemma MatrixMultiply_GPU_zero_overwrites_witness :
  exists w1' w2',
    MatrixMultiply_GPU_checked nan_l nan_r nan_y (Some 0%Z) nan_world
      = Some w1' /\
    MatrixMultiply_GPU_checked nan_l nan_r nan_y (Some 0%Z) num_world
      = Some w2' /\
    forall a, in_buffer nan_y a -> heap w1' a = heap w2' a.
Proof.
  apply (@MatrixMultiply_GPU_zero_overwrites (option Z) NaN_Scalar
           NaN_ZeroTest nan_l nan_r nan_y (Some 0%Z) nan_world num_world).
  - reflexivity.
  - concrete.
  - concrete.
  - concrete.
  - concrete.
  - concrete.
  - intros a Ha. cbv in Ha. replace a with 0 by lia. reflexivity.
  - intros a Ha. cbv in Ha. replace a with 1 by lia. reflexivity.
Defined.
